(** * MFAF: a multi-file archive format

    A shallow embedding of [core.py] and [exceptions.py] of the MFAF
    library, with the parts of [struct], [zlib.crc32] and [msgpack] that
    [MFAFFile.save] and [MFAFFile.load] call, followed by the properties of
    the archive codec. *)

From Stdlib Require Import ZArith Lia Strings.Byte Strings.Ascii Strings.String.
From stdpp Require Import base list strings pretty.

Local Open Scope Z_scope.

(* ===================================================================== *)
(** ** Bytes *)
(* ===================================================================== *)

(** A Python [bytes] object is a list of [Byte.byte]. *)
Abbreviation bytes := (list byte).

Definition b2z (b : byte) : Z := Z.of_N (Byte.to_N b).

Definition z2b (z : Z) : byte :=
  match Byte.of_N (Z.to_N (z mod 256)) with
  | Some b => b
  | None => x00
  end.

#[global] Instance byte_eq_decision : EqDecision byte := Byte.byte_eq_dec.

(** [len(x)] as a Python integer. *)
Definition len {A} (l : list A) : Z := Z.of_nat (length l).

(** [data[start:start+n]] on a list, for non-negative [start] and [n]. *)
Definition slice (data : bytes) (start n : Z) : bytes :=
  take (Z.to_nat n) (drop (Z.to_nat start) data).

(** The UTF-8 bytes of a Python [str]; a [string] of this development holds
    the encoded form. Decoding does not validate: Python raises
    [UnicodeDecodeError] on bytes that are not UTF-8, here they are kept
    as they are. *)
Definition encode_utf8 (s : string) : bytes := list_byte_of_string s.
Definition decode_utf8 (b : bytes) : string := string_of_list_byte b.

(* ===================================================================== *)
(** ** [struct]: fixed-width integers *)
(* ===================================================================== *)

(** [n] bytes of [v], least significant first. *)
Fixpoint le_bytes (n : nat) (v : Z) : bytes :=
  match n with
  | O => []
  | S n' => z2b v :: le_bytes n' (v / 256)
  end.

Fixpoint le_value (bs : bytes) : Z :=
  match bs with
  | [] => 0
  | b :: rest => b2z b + 256 * le_value rest
  end.

(** Big-endian forms, as MessagePack writes its lengths and integers. *)
Definition be_bytes (n : nat) (v : Z) : bytes := rev (le_bytes n v).
Definition be_value (bs : bytes) : Z := le_value (rev bs).

Definition zeros (n : nat) : bytes := replicate n x00.

(* ===================================================================== *)
(** ** Exceptions ([exceptions.py]) *)
(* ===================================================================== *)

(** Python's own exceptions that the code can raise or let through. *)
Inductive builtin_exception : Type :=
  | KeyError (msg : string)
  | TypeError
  | AttributeError
  | ValueError
  | OSError
  | OverflowError
  | StructError.

(** The classes of [exceptions.py], each with the message it is raised
    with, and the built-in exceptions next to them. *)
Inductive exn : Type :=
  | MFAFMagicError (msg : string)
  | MFAFSizeError (msg : string)
  | MFAFCRCError (msg : string)
  | MFAFRangeError (msg : string)
  | MFAFMsgPackError (msg : string)
  | MFAFVersionError (msg : string)
  | Builtin (e : builtin_exception).

(** [isinstance(e, MFAFError)]: the six classes that derive from the
    library's base class. *)
Definition is_MFAFError (e : exn) : bool :=
  match e with
  | Builtin _ => false
  | _ => true
  end.

Definition is_MFAFRangeError (e : exn) : bool :=
  match e with
  | MFAFRangeError _ => true
  | _ => false
  end.

(** A computation that returns or raises. *)
Definition result (A : Type) : Type := exn + A.
Definition Ok {A} (a : A) : result A := inr a.
Definition Raise {A} (e : exn) : result A := inl e.

Definition bind {A B} (m : result A) (k : A -> result B) : result B :=
  match m with
  | inl e => inl e
  | inr a => k a
  end.

Notation "'let*' x ':=' m 'in' k" := (bind m (fun x => k))
  (at level 10, x pattern, m at level 100, k at level 200).

(* ===================================================================== *)
(** ** [struct.pack] and [struct.unpack] *)
(* ===================================================================== *)

(** An unsigned field of [n] bytes; [struct.pack] raises [struct.error]
    on a value outside its range. *)
Definition pack_uint (n : nat) (v : Z) : result bytes :=
  if (0 <=? v) && (v <? 2 ^ (8 * Z.of_nat n))
  then Ok (le_bytes n v)
  else Raise (Builtin StructError).

(** An [8s] field: cut or zero-filled to 8 bytes. *)
Definition pack_8s (s : bytes) : bytes :=
  take 8 s ++ zeros (8 - length s).

(* Magic numbers *)
Definition HEADER_MAGIC : bytes := encode_utf8 "MAFFILE" ++ [x01].
Definition FOOTER_MAGIC : bytes := encode_utf8 "ENDMAF" ++ [x00; x00].

(* Constants *)
Definition HEADER_SIZE : Z := 64.
Definition FOOTER_SIZE : Z := 64.

(** [struct.pack('<8sQQQIHH24x', ...)] *)
Definition pack_header (magic : bytes)
    (total_size content_offset metadata_offset file_count version flags : Z)
    : result bytes :=
  let* ts := pack_uint 8 total_size in
  let* co := pack_uint 8 content_offset in
  let* mo := pack_uint 8 metadata_offset in
  let* fc := pack_uint 4 file_count in
  let* ve := pack_uint 2 version in
  let* fl := pack_uint 2 flags in
  Ok (pack_8s magic ++ ts ++ co ++ mo ++ fc ++ ve ++ fl ++ zeros 24).

(** [struct.unpack('<8sQQQIHH24x', data)] on 64 bytes. *)
Definition unpack_header (data : bytes) : bytes * Z * Z * Z * Z * Z * Z :=
  (take 8 data,
   le_value (take 8 (drop 8 data)),
   le_value (take 8 (drop 16 data)),
   le_value (take 8 (drop 24 data)),
   le_value (take 4 (drop 32 data)),
   le_value (take 2 (drop 36 data)),
   le_value (take 2 (drop 38 data))).

(** [struct.pack('<8sQI44x', ...)] *)
Definition pack_footer (magic : bytes) (metadata_end checksum : Z)
    : result bytes :=
  let* me := pack_uint 8 metadata_end in
  let* ck := pack_uint 4 checksum in
  Ok (pack_8s magic ++ me ++ ck ++ zeros 44).

(** [struct.unpack('<8sQI44x', data)] on 64 bytes. *)
Definition unpack_footer (data : bytes) : bytes * Z * Z :=
  (take 8 data,
   le_value (take 8 (drop 8 data)),
   le_value (take 4 (drop 16 data))).

(* ===================================================================== *)
(** ** [zlib.crc32] *)
(* ===================================================================== *)

(** CRC-32 as zlib computes it: reflected polynomial, register preset to
    all ones, result inverted. *)
Definition crc_poly : Z := 0xEDB88320.

Definition crc_shift (c : Z) : Z :=
  Z.lxor (Z.shiftr c 1) (if Z.testbit c 0 then crc_poly else 0).

Definition crc_byte (c : Z) (b : byte) : Z :=
  Nat.iter 8 crc_shift (Z.lxor c (b2z b)).

Definition crc32 (data : bytes) : Z :=
  Z.lxor (fold_left crc_byte data 0xFFFFFFFF) 0xFFFFFFFF.

(* ===================================================================== *)
(** ** [msgpack]: values, [packb] and [unpackb] *)
(* ===================================================================== *)

(** The Python values that occur in the metadata table: [None], booleans,
    integers, [str], [bytes], lists, and dictionaries with [str] keys (the
    key type of the source's [Dict[str, Any]]). A dictionary keeps its
    insertion order, as Python's does. A [str] is held in its UTF-8
    encoded form. Floating point numbers, extension types and
    dictionaries with [bytes] keys, which msgpack also handles, have no
    constructor: what is proved holds for the values below only. *)
#[local] Unset Elimination Schemes.
Inductive value : Type :=
  | VNil
  | VBool (b : bool)
  | VInt (n : Z)
  | VStr (s : string)
  | VBin (b : bytes)
  | VList (l : list value)
  | VDict (d : list (string * value)).
#[local] Set Elimination Schemes.

Definition pack_int (n : Z) : bytes :=
  if 0 <=? n then
    if n <? 128 then [z2b n]
    else if n <? 256 then [xcc; z2b n]
    else if n <? 65536 then xcd :: be_bytes 2 n
    else if n <? 4294967296 then xce :: be_bytes 4 n
    else xcf :: be_bytes 8 n
  else
    if -32 <=? n then [z2b n]
    else if -128 <=? n then [xd0; z2b n]
    else if -32768 <=? n then xd1 :: be_bytes 2 n
    else if -2147483648 <=? n then xd2 :: be_bytes 4 n
    else xd3 :: be_bytes 8 n.

Definition pack_str_header (n : Z) : bytes :=
  if n <? 32 then [z2b (160 + n)]
  else if n <? 256 then [xd9; z2b n]
  else if n <? 65536 then xda :: be_bytes 2 n
  else xdb :: be_bytes 4 n.

Definition pack_bin_header (n : Z) : bytes :=
  if n <? 256 then [xc4; z2b n]
  else if n <? 65536 then xc5 :: be_bytes 2 n
  else xc6 :: be_bytes 4 n.

Definition pack_array_header (n : Z) : bytes :=
  if n <? 16 then [z2b (144 + n)]
  else if n <? 65536 then xdc :: be_bytes 2 n
  else xdd :: be_bytes 4 n.

Definition pack_map_header (n : Z) : bytes :=
  if n <? 16 then [z2b (128 + n)]
  else if n <? 65536 then xde :: be_bytes 2 n
  else xdf :: be_bytes 4 n.

Definition pack_str (s : string) : bytes :=
  pack_str_header (len (encode_utf8 s)) ++ encode_utf8 s.

(** The bytes [msgpack.packb] writes for a value (with [use_bin_type], the
    default: [str] and [bytes] have their own tags). *)
Fixpoint pack (v : value) : bytes :=
  match v with
  | VNil => [xc0]
  | VBool false => [xc2]
  | VBool true => [xc3]
  | VInt n => pack_int n
  | VStr s => pack_str s
  | VBin b => pack_bin_header (len b) ++ b
  | VList l =>
      pack_array_header (len l) ++
      (fix pack_items (l : list value) : bytes :=
         match l with
         | [] => []
         | x :: r => pack x ++ pack_items r
         end) l
  | VDict d =>
      pack_map_header (len d) ++
      (fix pack_pairs (d : list (string * value)) : bytes :=
         match d with
         | [] => []
         | (k, x) :: r => pack_str k ++ pack x ++ pack_pairs r
         end) d
  end.

Definition str_fits (s : string) : bool :=
  len (encode_utf8 s) <? 4294967296.

(** What the packer accepts: integers of 64 bits, lengths of 32 bits, and
    nesting within the packer's recursion limit. [nest] counts the levels
    still allowed, the current one included. *)
Fixpoint packable (nest : nat) (v : value) : bool :=
  match nest with
  | O => false
  | S nest' =>
      match v with
      | VNil | VBool _ => true
      | VInt n => (-9223372036854775808 <=? n) && (n <? 18446744073709551616)
      | VStr s => str_fits s
      | VBin b => len b <? 4294967296
      | VList l => (len l <? 4294967296) && forallb (packable nest') l
      | VDict d =>
          (len d <? 4294967296) &&
          forallb (fun kv => str_fits kv.1 && packable nest' kv.2) d
      end
  end.

(** The packer's [DEFAULT_RECURSE_LIMIT] is 511, as in msgpack 1.0 and
    1.1: the top level and 511 levels below. *)
Definition RECURSE_LEVELS : nat := 512.

(** The first of a sequence of outcomes that is an error. *)
Definition first_error {E : Type} (l : list (option E)) : option E :=
  foldr (fun o acc => match o with Some e => Some e | None => acc end) None l.

(** The exception the packer raises for a value, if any. It walks the
    value in order and stops at the first failure: [ValueError] where the
    recursion limit is passed or a length does not fit 32 bits,
    [OverflowError] for an integer outside 64 bits. *)
Fixpoint pack_error (nest : nat) (v : value) : option builtin_exception :=
  match nest with
  | O => Some ValueError
  | S nest' =>
      match v with
      | VNil | VBool _ => None
      | VInt n =>
          if (-9223372036854775808 <=? n) && (n <? 18446744073709551616)
          then None else Some OverflowError
      | VStr s => if str_fits s then None else Some ValueError
      | VBin b => if len b <? 4294967296 then None else Some ValueError
      | VList l =>
          if len l <? 4294967296
          then first_error (map (pack_error nest') l)
          else Some ValueError
      | VDict d =>
          if len d <? 4294967296
          then first_error
                 (flat_map (fun kv => [pack_error nest' (VStr kv.1);
                                       pack_error nest' kv.2]) d)
          else Some ValueError
      end
  end.

(** [msgpack.packb(v)] *)
Definition packb (v : value) : result bytes :=
  match pack_error RECURSE_LEVELS v with
  | Some e => Raise (Builtin e)
  | None => Ok (pack v)
  end.

(** [d[k] = v] on a dictionary: an existing key keeps its place. *)
Fixpoint dict_set (d : list (string * value)) (k : string) (v : value)
    : list (string * value) :=
  match d with
  | [] => [(k, v)]
  | (k', v') :: r =>
      if String.eqb k' k then (k, v) :: r else (k', v') :: dict_set r k v
  end.

(** [d.get(k)] *)
Fixpoint dict_get (d : list (string * value)) (k : string) : option value :=
  match d with
  | [] => None
  | (k', v) :: r => if String.eqb k' k then Some v else dict_get r k
  end.

(** [n] bytes from the front, or nothing when fewer are left. *)
Definition take_exact (n : Z) (bs : bytes) : option (bytes * bytes) :=
  if len bs <? n then None
  else Some (take (Z.to_nat n) bs, drop (Z.to_nat n) bs).

(** An unsigned big-endian field of [n] bytes. *)
Definition read_uint (n : Z) (bs : bytes) : option (Z * bytes) :=
  '(field, rest) ← take_exact n bs;
  Some (be_value field, rest).

(** A two's complement big-endian field of [n] bytes. *)
Definition read_int (n : Z) (bs : bytes) : option (Z * bytes) :=
  '(u, rest) ← read_uint n bs;
  Some (if u <? 2 ^ (8 * n - 1) then u else u - 2 ^ (8 * n), rest).

Section Unpack.
(** The decoder for one value, at the nesting level below. *)
Variable unpack_one : bytes -> option (value * bytes).

Fixpoint unpack_items (n : nat) (bs : bytes) : option (list value * bytes) :=
  match n with
  | O => Some ([], bs)
  | S n' =>
      '(v, bs1) ← unpack_one bs;
      '(vs, bs2) ← unpack_items n' bs1;
      Some (v :: vs, bs2)
  end.

(** Map keys have to be [str]. ([strict_map_key] admits [bytes] keys as
    well; [value] has no place for them and they are refused here.) *)
Fixpoint unpack_pairs (n : nat) (acc : list (string * value)) (bs : bytes)
    : option (list (string * value) * bytes) :=
  match n with
  | O => Some (acc, bs)
  | S n' =>
      '(k, bs1) ← unpack_one bs;
      match k with
      | VStr key =>
          '(v, bs2) ← unpack_one bs1;
          unpack_pairs n' (dict_set acc key v) bs2
      | _ => None
      end
  end.

Definition unpack_str (n : Z) (bs : bytes) : option (value * bytes) :=
  '(s, rest) ← take_exact n bs; Some (VStr (decode_utf8 s), rest).

Definition unpack_bin (n : Z) (bs : bytes) : option (value * bytes) :=
  '(b, rest) ← take_exact n bs; Some (VBin b, rest).

Definition unpack_array (n : Z) (bs : bytes) : option (value * bytes) :=
  '(vs, rest) ← unpack_items (Z.to_nat n) bs; Some (VList vs, rest).

Definition unpack_map (n : Z) (bs : bytes) : option (value * bytes) :=
  '(d, rest) ← unpack_pairs (Z.to_nat n) [] bs; Some (VDict d, rest).

(** Dispatch on the first byte. [0xc1] is never used and makes msgpack
    fail. The tags of floating point numbers ([0xca], [0xcb]) and of
    extension types ([0xc7] to [0xc9], [0xd4] to [0xd8]) are decoded by
    msgpack; [value] has no place for the result, and they are answered
    here like a failure. *)
Definition unpack_tag (tag : Z) (rest : bytes) : option (value * bytes) :=
  if tag <? 128 then Some (VInt tag, rest)
  else if tag <? 144 then unpack_map (tag - 128) rest
  else if tag <? 160 then unpack_array (tag - 144) rest
  else if tag <? 192 then unpack_str (tag - 160) rest
  else if tag =? 192 then Some (VNil, rest)
  else if tag =? 194 then Some (VBool false, rest)
  else if tag =? 195 then Some (VBool true, rest)
  else if tag =? 196 then '(n, r) ← read_uint 1 rest; unpack_bin n r
  else if tag =? 197 then '(n, r) ← read_uint 2 rest; unpack_bin n r
  else if tag =? 198 then '(n, r) ← read_uint 4 rest; unpack_bin n r
  else if tag =? 204 then '(n, r) ← read_uint 1 rest; Some (VInt n, r)
  else if tag =? 205 then '(n, r) ← read_uint 2 rest; Some (VInt n, r)
  else if tag =? 206 then '(n, r) ← read_uint 4 rest; Some (VInt n, r)
  else if tag =? 207 then '(n, r) ← read_uint 8 rest; Some (VInt n, r)
  else if tag =? 208 then '(n, r) ← read_int 1 rest; Some (VInt n, r)
  else if tag =? 209 then '(n, r) ← read_int 2 rest; Some (VInt n, r)
  else if tag =? 210 then '(n, r) ← read_int 4 rest; Some (VInt n, r)
  else if tag =? 211 then '(n, r) ← read_int 8 rest; Some (VInt n, r)
  else if tag =? 217 then '(n, r) ← read_uint 1 rest; unpack_str n r
  else if tag =? 218 then '(n, r) ← read_uint 2 rest; unpack_str n r
  else if tag =? 219 then '(n, r) ← read_uint 4 rest; unpack_str n r
  else if tag =? 220 then '(n, r) ← read_uint 2 rest; unpack_array n r
  else if tag =? 221 then '(n, r) ← read_uint 4 rest; unpack_array n r
  else if tag =? 222 then '(n, r) ← read_uint 2 rest; unpack_map n r
  else if tag =? 223 then '(n, r) ← read_uint 4 rest; unpack_map n r
  else if 224 <=? tag then Some (VInt (tag - 256), rest)
  else None.
End Unpack.

(** One value from the front of [bs]; [fuel] bounds the nesting depth. *)
Fixpoint unpack (fuel : nat) (bs : bytes) : option (value * bytes) :=
  match fuel with
  | O => None
  | S fuel' =>
      match bs with
      | [] => None
      | t :: rest => unpack_tag (unpack fuel') (b2z t) rest
      end
  end.

(** [msgpack.unpackb(data)] with its defaults ([raw=False],
    [strict_map_key=True]): exactly one value, no bytes left over. A value
    nests no deeper than it has bytes, so the fuel never runs out.
    msgpack itself is stricter in two places that are not modelled: it
    refuses a [str] that is not UTF-8 and nesting deeper than 1024
    levels. On the bytes that [pack] writes for an accepted value whose
    strings are UTF-8 the two agree. *)
Definition unpackb (data : bytes) : option value :=
  match unpack (S (length data)) data with
  | Some (v, []) => Some v
  | _ => None
  end.

(* ===================================================================== *)
(** ** [MFAFEntry] *)
(* ===================================================================== *)

(** Python's truth value of an object. *)
Definition truthy (v : value) : bool :=
  match v with
  | VNil => false
  | VBool b => b
  | VInt n => negb (n =? 0)
  | VStr s => negb (String.eqb s "")
  | VBin b => negb (bool_decide (b = []))
  | VList l => match l with [] => false | _ => true end
  | VDict d => match d with [] => false | _ => true end
  end.

(** The integer an object stands for in arithmetic and as an index:
    integers and booleans have one. *)
Definition as_int (v : value) : option Z :=
  match v with
  | VInt n => Some n
  | VBool b => Some (Z.b2z b)
  | _ => None
  end.

(** An entry object. The fields are untyped in the source; [content] is
    always [bytes]. *)
Record MFAFEntry : Type := {
  name : value;
  content : bytes;
  mime_type : value;
  attributes : value;
  offset : value;
  size : value
}.

Definition set_offset (e : MFAFEntry) (o : value) : MFAFEntry :=
  {| name := name e; content := content e; mime_type := mime_type e;
     attributes := attributes e; offset := o; size := size e |}.

Definition set_size (e : MFAFEntry) (s : value) : MFAFEntry :=
  {| name := name e; content := content e; mime_type := mime_type e;
     attributes := attributes e; offset := offset e; size := s |}.

Definition set_content (e : MFAFEntry) (c : bytes) : MFAFEntry :=
  {| name := name e; content := c; mime_type := mime_type e;
     attributes := attributes e; offset := offset e; size := size e |}.

Definition DEFAULT_MIME : string := "application/octet-stream".

(** [MFAFEntry.__init__]; [attributes] is [VNil] for [None]. *)
Definition MFAFEntry_init (name : value) (content : bytes)
    (mime_type : value) (attributes : value) : MFAFEntry :=
  {| name := name;
     content := content;
     mime_type := mime_type;
     attributes := if truthy attributes then attributes else VDict [];
     offset := VInt 0;
     size := VInt (len content) |}.

(** [MFAFEntry.to_dict] *)
Definition to_dict (self : MFAFEntry) : value :=
  let result := [("n", name self); ("o", offset self);
                 ("s", size self); ("m", mime_type self)] in
  if truthy (attributes self)
  then VDict (dict_set result "a" (attributes self))
  else VDict result.

(** [MFAFEntry.from_dict]; only a dictionary has [get]. *)
Definition from_dict (data : value) : result MFAFEntry :=
  match data with
  | VDict d =>
      let entry :=
        MFAFEntry_init (default (VStr "") (dict_get d "n")) []
                       (default (VStr DEFAULT_MIME) (dict_get d "m"))
                       (default (VDict []) (dict_get d "a")) in
      let entry := set_offset entry (default (VInt 0) (dict_get d "o")) in
      let entry := set_size entry (default (VInt 0) (dict_get d "s")) in
      Ok entry
  | _ => Raise (Builtin AttributeError)
  end.

(* ===================================================================== *)
(** ** The object store *)
(* ===================================================================== *)

(** Entries are objects: an archive holds references to them, and the same
    entry can be held more than once. A reference is an index into the
    store. *)
Abbreviation heap := (list MFAFEntry).

#[global] Instance MFAFEntry_inhabited : Inhabited MFAFEntry :=
  populate (MFAFEntry_init (VStr "") [] (VStr DEFAULT_MIME) VNil).

(** A new object. *)
Definition alloc (e : MFAFEntry) (h : heap) : nat * heap :=
  (length h, h ++ [e]).

(* ===================================================================== *)
(** ** [MFAFFile] *)
(* ===================================================================== *)

Record MFAFFile : Type := {
  entries : list nat;
  version : Z;
  flags : Z;
  total_size : Z
}.

(** [MFAFFile.__init__] *)
Definition MFAFFile_init : MFAFFile :=
  {| entries := []; version := 1; flags := 0;
     total_size := HEADER_SIZE + FOOTER_SIZE |}.

(** [MFAFFile.add_entry] *)
Definition add_entry (self : MFAFFile) (entry : nat) : MFAFFile :=
  {| entries := entries self ++ [entry]; version := version self;
     flags := flags self; total_size := total_size self |}.

Definition set_total_size (self : MFAFFile) (t : Z) : MFAFFile :=
  {| entries := entries self; version := version self;
     flags := flags self; total_size := t |}.

(** The loop of [save] that sets the offsets:
    [entry.offset = current_offset; current_offset += entry.size].
    Adding a non-integer raises [TypeError]. *)
Fixpoint set_offsets (refs : list nat) (current_offset : Z) (h : heap)
    : result Z * heap :=
  match refs with
  | [] => (Ok current_offset, h)
  | r :: rest =>
      let h1 := alter (fun entry => set_offset entry (VInt current_offset)) r h in
      match as_int (size (h1 !!! r)) with
      | Some s => set_offsets rest (current_offset + s) h1
      | None => (Raise (Builtin TypeError), h1)
      end
  end.

Definition sum_Z (l : list Z) : Z := foldr Z.add 0 l.

(** What [save] writes once the metadata is serialised. *)
Definition write_archive (self : MFAFFile) (h : heap)
    (content_offset metadata_offset metadata_end : Z)
    (metadata_bytes : bytes) : result bytes :=
  let* header :=
    pack_header HEADER_MAGIC (total_size self) content_offset
                metadata_offset (len (entries self))
                (version self) (flags self) in
  let contents := concat (map (fun r => content (h !!! r)) (entries self)) in
  let checksum := Z.land (crc32 metadata_bytes) 0xffffffff in
  let* footer := pack_footer FOOTER_MAGIC metadata_end checksum in
  Ok (header ++ contents ++ metadata_bytes ++ footer).

(** [MFAFFile.save]: the bytes written to the file, the archive object and
    the store afterwards. *)
Definition save (self : MFAFFile) (h : heap)
    : result bytes * (MFAFFile * heap) :=
  let content_offset := HEADER_SIZE in
  let content_size :=
    sum_Z (map (fun r => len (content (h !!! r))) (entries self)) in
  match set_offsets (entries self) content_offset h with
  | (inl e, h1) => (Raise e, (self, h1))
  | (inr _, h1) =>
      let metadata_offset := content_offset + content_size in
      let metadata_list := map (fun r => to_dict (h1 !!! r)) (entries self) in
      match packb (VList metadata_list) with
      | inl e => (Raise e, (self, h1))
      | inr metadata_bytes =>
          let metadata_end := metadata_offset + len metadata_bytes in
          let self1 := set_total_size self (metadata_end + FOOTER_SIZE) in
          (write_archive self1 h1 content_offset metadata_offset
                         metadata_end metadata_bytes,
           (self1, h1))
      end
  end.

(* ===================================================================== *)
(** ** Reading the file *)
(* ===================================================================== *)

(** The file opened by [load] is its bytes [data] and a position. *)

(** [f.read(n)] at position [pos]: the bytes read and the new position.
    [-1] reads to the end; fewer bytes than asked come back at the end of
    the file. *)
Definition f_read (data : bytes) (n : Z) (pos : Z) : result (bytes * Z) :=
  if n <? -1 then Raise (Builtin ValueError)
  else if 9223372036854775808 <=? n then Raise (Builtin OverflowError)
  else
    let chunk := if n =? -1 then drop (Z.to_nat pos) data
                 else slice data pos n in
    Ok (chunk, pos + len chunk).

(** [f.seek(offset)]: the new position. *)
Definition f_seek (offset : Z) : result Z :=
  if offset <? 0 then Raise (Builtin OSError)
  else if 9223372036854775808 <=? offset then Raise (Builtin ValueError)
  else Ok offset.

(** [f.seek(offset, os.SEEK_END)] *)
Definition f_seek_end (data : bytes) (offset : Z) : result Z :=
  if len data + offset <? 0 then Raise (Builtin OSError)
  else Ok (len data + offset).

(** [f.seek(v)] and [f.read(v)] on an object read from the metadata. *)
Definition seek_value (v : value) : result Z :=
  match as_int v with
  | Some n => f_seek n
  | None => Raise (Builtin TypeError)
  end.

Definition read_value (data : bytes) (v : value) (pos : Z)
    : result (bytes * Z) :=
  match v with
  | VNil => f_read data (-1) pos
  | _ =>
      match as_int v with
      | Some n => f_read data n pos
      | None => Raise (Builtin TypeError)
      end
  end.

(** The items a [for] loop takes from an object. (The items of a [str]
    are taken from its encoded form; [from_dict] fails on each of them
    alike.) *)
Definition iterate (v : value) : result (list value) :=
  match v with
  | VList l => Ok l
  | VDict d => Ok (map (fun kv => VStr kv.1) d)
  | VStr s => Ok (map (fun b => VStr (decode_utf8 [b])) (encode_utf8 s))
  | VBin b => Ok (map (fun x => VInt (b2z x)) b)
  | _ => Raise (Builtin TypeError)
  end.

(** The loop of [load] over the metadata records. *)
Fixpoint load_entries (data : bytes) (items : list value)
    (mfaf : MFAFFile) (h : heap) : result (MFAFFile * heap) :=
  match items with
  | [] => Ok (mfaf, h)
  | item :: rest =>
      let* entry := from_dict item in
      let* pos := seek_value (offset entry) in
      let* (chunk, _) := read_value data (size entry) pos in
      let '(r, h1) := alloc (set_content entry chunk) h in
      load_entries data rest (add_entry mfaf r) h1
  end.

(** The size check of [load], as the source writes it. *)
Definition sizes_consistent (total_size metadata_offset metadata_end : Z)
    : bool :=
  metadata_offset + (metadata_end - metadata_offset) + FOOTER_SIZE =? total_size.

(** [MFAFFile.load] on a file with bytes [data]: the new archive object,
    its entries allocated in the store. The source's message for
    [MFAFMsgPackError] goes on with a colon and the text of the msgpack
    exception; that part is left out here. *)
Definition load (data : bytes) (h : heap) : result (MFAFFile * heap) :=
  let* (header_data, pos) := f_read data HEADER_SIZE 0 in
  if len header_data <? HEADER_SIZE
  then Raise (MFAFSizeError "File too small to contain a valid header")
  else
  let '(magic, total_size, content_offset, metadata_offset,
        file_count, version, flags) := unpack_header header_data in
  if negb (bool_decide (magic = HEADER_MAGIC))
  then Raise (MFAFMagicError "Invalid header magic number")
  else
  if 1 <? version
  then Raise (MFAFVersionError ("Unsupported version: " +:+ pretty version))
  else
  let* pos := f_seek_end data (- FOOTER_SIZE) in
  let* (footer_data, pos) := f_read data FOOTER_SIZE pos in
  if len footer_data <? FOOTER_SIZE
  then Raise (MFAFSizeError "File too small to contain a valid footer")
  else
  let '(footer_magic, metadata_end, checksum) := unpack_footer footer_data in
  if negb (bool_decide (footer_magic = FOOTER_MAGIC))
  then Raise (MFAFMagicError "Invalid footer magic number")
  else
  if negb (sizes_consistent total_size metadata_offset metadata_end)
  then Raise (MFAFSizeError "Inconsistent size fields")
  else
  let metadata_length := metadata_end - metadata_offset in
  let* pos := f_seek metadata_offset in
  let* (metadata_bytes, pos) := f_read data metadata_length pos in
  let calculated_checksum := Z.land (crc32 metadata_bytes) 0xffffffff in
  if negb (calculated_checksum =? checksum)
  then Raise (MFAFCRCError "Metadata checksum mismatch")
  else
  match unpackb metadata_bytes with
  | None => Raise (MFAFMsgPackError "Failed to parse metadata")
  | Some metadata_list =>
      let mfaf := MFAFFile_init in
      let mfaf :=
        {| entries := entries mfaf; version := version; flags := flags;
           total_size := total_size |} in
      let* items := iterate metadata_list in
      load_entries data items mfaf h
  end.

(* ===================================================================== *)
(** ** Lookup and extraction *)
(* ===================================================================== *)

(** [entry.name == name] for a [str] [name]. *)
Definition name_is (wanted : string) (e : MFAFEntry) : bool :=
  match name e with
  | VStr s => String.eqb s wanted
  | _ => false
  end.

(** [MFAFFile.get_entry]: the first entry of that name, or [None]. *)
Definition get_entry (self : MFAFFile) (h : heap) (name : string)
    : option nat :=
  List.find (fun r => name_is name (h !!! r)) (entries self).

(** [MFAFFile.extract_entry]: the bytes written to the output file. An
    entry object is always true, so [not entry] holds for [None] only. *)
Definition extract_entry (self : MFAFFile) (h : heap) (name : string)
    : result bytes :=
  match get_entry self h name with
  | None => Raise (Builtin (KeyError ("Entry '" +:+ name +:+ "' not found")))
  | Some r => Ok (content (h !!! r))
  end.

(** [MFAFFile.list_entries] *)
Definition list_entries (self : MFAFFile) (h : heap) : list value :=
  map (fun r => name (h !!! r)) (entries self).

(* ===================================================================== *)
(** ** Building an archive *)
(* ===================================================================== *)

(** What a caller gives for one entry: name, content, MIME type and
    attribute dictionary. *)
Definition item : Type := string * bytes * string * list (string * value).

(** [mfaf.add_entry(MFAFEntry(name, content, mime_type, attributes))] *)
Definition append_item (st : MFAFFile * heap) (it : item) : MFAFFile * heap :=
  let '(n, c, m, a) := it in
  let '(r, h1) := alloc (MFAFEntry_init (VStr n) c (VStr m) (VDict a)) st.2 in
  (add_entry st.1 r, h1).

(** A new archive with the items appended in order, from an empty store. *)
Definition build (items : list item) : MFAFFile * heap :=
  foldl append_item (MFAFFile_init, []) items.

Definition hello : bytes := [x48; x65; x6c; x6c; x6f].

(** Dictionaries have distinct keys, at every level. *)
Fixpoint wf_value (v : value) : bool :=
  match v with
  | VList l =>
      (fix wf_items (l : list value) : bool :=
         match l with
         | [] => true
         | x :: r => wf_value x && wf_items r
         end) l
  | VDict d =>
      bool_decide (NoDup (map fst d)) &&
      (fix wf_pairs (d : list (string * value)) : bool :=
         match d with
         | [] => true
         | (_, x) :: r => wf_value x && wf_pairs r
         end) d
  | _ => true
  end.

Definition pack_pair (kv : string * value) : bytes :=
  pack_str kv.1 ++ pack kv.2.

(* ===================================================================== *)
(** ** The layout of a built archive *)
(* ===================================================================== *)

(** The entry object [MFAFEntry(name, content, mime_type, attributes)]. *)
Definition entry_of_item (it : item) : MFAFEntry :=
  let '(n, c, m, a) := it in
  MFAFEntry_init (VStr n) c (VStr m) (VDict a).

Definition item_content (it : item) : bytes := it.1.1.2.

(** Entries with their offsets set one after the other from [cur], each
    advancing by the length of its content. *)
Fixpoint lay_out (cur : Z) (es : list MFAFEntry) : list MFAFEntry :=
  match es with
  | [] => []
  | e :: r => set_offset e (VInt cur) :: lay_out (cur + len (content e)) r
  end.

(** The content region and the metadata blob of the archive of [items]. *)
Definition contents_of (items : list item) : bytes :=
  concat (map item_content items).

Definition metadata_of (items : list item) : bytes :=
  pack (VList (map to_dict (lay_out HEADER_SIZE (map entry_of_item items)))).

Definition archive_size (items : list item) : Z :=
  HEADER_SIZE + len (contents_of items) + len (metadata_of items) + FOOTER_SIZE.

(** The whole archive file of [items]. *)
Definition archive_bytes (items : list item) : bytes :=
  let metadata_offset := HEADER_SIZE + len (contents_of items) in
  let metadata_end := metadata_offset + len (metadata_of items) in
  (HEADER_MAGIC ++ le_bytes 8 (archive_size items) ++ le_bytes 8 HEADER_SIZE ++
   le_bytes 8 metadata_offset ++ le_bytes 4 (len items) ++
   le_bytes 2 1 ++ le_bytes 2 0 ++ zeros 24) ++
  contents_of items ++
  metadata_of items ++
  (FOOTER_MAGIC ++ le_bytes 8 metadata_end ++
   le_bytes 4 (crc32 (metadata_of items)) ++ zeros 44).

(** An item the packer accepts: name and MIME type of fewer than 2^32
    bytes, and an attribute dictionary that the packer accepts two levels
    below the metadata list, with distinct keys at every level. *)
Definition item_ok (it : item) : bool :=
  let '(n, c, m, a) := it in
  str_fits n && str_fits m &&
  packable (RECURSE_LEVELS - 2) (VDict a) && wf_value (VDict a).

(** Items that make an archive within the limits of the format and of a
    file: every item accepted by the packer, fewer than 2^32 of them, and
    fewer than 2^63 bytes in all. *)
Definition encodable (items : list item) : bool :=
  forallb item_ok items &&
  (len items <? 4294967296) &&
  (archive_size items <? 9223372036854775808).

(** [save] on the archive built from [items]: the bytes written. *)
Definition encode (items : list item) : result bytes :=
  (save (build items).1 (build items).2).1.

(** What a caller sees of an entry: name, content, MIME type, attributes. *)
Definition view (e : MFAFEntry) : value * bytes * value * value :=
  (name e, content e, mime_type e, attributes e).

Definition view_item (it : item) : value * bytes * value * value :=
  let '(n, c, m, a) := it in (VStr n, c, VStr m, VDict a).

(** The entries of an archive, in order, as a caller sees them. *)
Definition views (self : MFAFFile) (h : heap) : list (value * bytes * value * value) :=
  map (fun r => view (h !!! r)) (entries self).

(** Bit [k] of the byte at index [i] inverted. *)
Definition flip_bit (data : bytes) (i : nat) (k : Z) : bytes :=
  alter (fun b => z2b (Z.lxor (b2z b) (2 ^ k))) i data.

(** Entries as the constructor leaves them: [size] holds the length of
    the content. *)
Definition sized (e : MFAFEntry) : Prop := size e = VInt (len (content e)).

(** The part of [load] that follows the size check: reading the metadata,
    its checksum, parsing, and the loop over the records. *)
Definition load_tail (data : bytes)
    (total_size metadata_offset metadata_end checksum version flags : Z)
    (h : heap) : result (MFAFFile * heap) :=
  let metadata_length := metadata_end - metadata_offset in
  let* pos := f_seek metadata_offset in
  let* (metadata_bytes, pos) := f_read data metadata_length pos in
  let calculated_checksum := Z.land (crc32 metadata_bytes) 0xffffffff in
  if negb (calculated_checksum =? checksum)
  then Raise (MFAFCRCError "Metadata checksum mismatch")
  else
  match unpackb metadata_bytes with
  | None => Raise (MFAFMsgPackError "Failed to parse metadata")
  | Some metadata_list =>
      let mfaf := MFAFFile_init in
      let mfaf :=
        {| entries := entries mfaf; version := version; flags := flags;
           total_size := total_size |} in
      let* items := iterate metadata_list in
      load_entries data items mfaf h
  end.

(** The header and the footer that [load] reads from a file of at least 64
    bytes: its first and its last 64 bytes. *)
Definition header_of (data : bytes) : bytes * Z * Z * Z * Z * Z * Z :=
  unpack_header (take 64 data).

Definition footer_of (data : bytes) : bytes * Z * Z :=
  unpack_footer (drop (length data - 64) data).

(** The bytes of the header field [metadata_offset] replaced by [x]. *)
Definition patch_metadata_offset (data x : bytes) : bytes :=
  take 24 data ++ x ++ drop 32 data.

Definition INCONSISTENT : exn := MFAFSizeError "Inconsistent size fields".

(** The exceptions that the part of [load] after the size check can end
    with. *)
Definition late_error (e : exn) : bool :=
  match e with
  | MFAFCRCError _ | MFAFMsgPackError _ | Builtin _ => true
  | _ => false
  end.

Definition is_Builtin (e : exn) : bool :=
  match e with
  | Builtin _ => true
  | _ => false
  end.

(** A file with the layout [save] writes: header, content region,
    metadata blob, footer. *)
Definition archive_file (total_size content_offset metadata_offset
    file_count version flags : Z) (contents metadata : bytes)
    (metadata_end checksum : Z) : bytes :=
  (HEADER_MAGIC ++ le_bytes 8 total_size ++ le_bytes 8 content_offset ++
   le_bytes 8 metadata_offset ++ le_bytes 4 file_count ++
   le_bytes 2 version ++ le_bytes 2 flags ++ zeros 24) ++
  contents ++
  metadata ++
  (FOOTER_MAGIC ++ le_bytes 8 metadata_end ++ le_bytes 4 checksum ++ zeros 44).

(** The bytes [load] reads for an entry: [f.seek(offset); f.read(size)]
    for a non-negative offset and size. *)
Definition content_at (data : bytes) (e : MFAFEntry) : bytes :=
  match as_int (offset e), as_int (size e) with
  | Some o, Some s => slice data o s
  | _, _ => []
  end.

(** An entry whose record [load] reads back without an exception: offset
    and size are integers of a file position, and the attributes are a
    non-empty object or the empty dictionary. *)
Definition placed (e : MFAFEntry) : Prop :=
  attributes e = (if truthy (attributes e) then attributes e else VDict []) /\
  exists o s, offset e = VInt o /\ size e = VInt s /\
              0 <= o < 9223372036854775808 /\ 0 <= s < 9223372036854775808.

(** Two items for the examples: one with attributes, one empty. *)
Definition sample_items : list item :=
  [("hello.txt", hello, "text/plain", [("lang", VStr "en"); ("rev", VInt 3)]);
   ("empty.bin", [], DEFAULT_MIME, [])].

(** A file that passes every check of [load] and whose only record
    declares 10 bytes at offset 1000, far beyond the end of the file. *)
Definition stray_metadata : bytes :=
  pack (VList [VDict [("n", VStr "x"); ("o", VInt 1000); ("s", VInt 10);
                      ("m", VStr DEFAULT_MIME)]]).

Definition stray_file : bytes :=
  archive_file (HEADER_SIZE + len stray_metadata + FOOTER_SIZE) HEADER_SIZE
    HEADER_SIZE 1 1 0 [] stray_metadata
    (HEADER_SIZE + len stray_metadata) (crc32 stray_metadata).

(** The file [save] writes for the empty archive. *)
Definition empty_archive_bytes : bytes := archive_bytes [].

(** One entry object appended twice to an archive. *)
Definition shared_entry : MFAFEntry :=
  MFAFEntry_init (VStr "a") hello (VStr DEFAULT_MIME) VNil.

Definition shared_twice : MFAFFile :=
  add_entry (add_entry MFAFFile_init 0%nat) 0%nat.

(** The entries [refs] lie one after the other from [cur] in the store:
    the first at [cur], each next one at the offset of the one before
    plus its size. *)
Fixpoint laid_out_from (cur : Z) (refs : list nat) (h : heap) : Prop :=
  match refs with
  | [] => True
  | r :: rest =>
      offset (h !!! r) = VInt cur /\
      exists s, as_int (size (h !!! r)) = Some s /\
                laid_out_from (cur + s) rest h
  end.

(** Two entry objects that differ in their [offset] at most. *)
Definition same_but_offset (e e' : MFAFEntry) : Prop :=
  name e = name e' /\ content e = content e' /\
  mime_type e = mime_type e' /\ attributes e = attributes e' /\
  size e = size e'.

(** The file of an empty archive that declares version 2. *)
Definition version_2_file : bytes :=
  archive_file 129 HEADER_SIZE 64 0 2 0 [] (pack (VList [])) 65
               (crc32 (pack (VList []))).

(** An item whose content begins like a footer: the footer magic, the
    metadata end and the metadata checksum of its own archive. *)
Definition mimic_metadata : bytes :=
  metadata_of [("a", zeros 20, "", [])].

Definition mimic_items : list item :=
  [("a", FOOTER_MAGIC ++ le_bytes 8 99 ++ le_bytes 4 (crc32 mimic_metadata),
    "", [])].

(** A register of the checksum: 32 bits. *)
Definition u32 (c : Z) : Prop := 0 <= c < 2 ^ 32.

(** Induction over values, with the elements of lists and dictionaries. *)
Section ValueInd.
Variable P : value -> Prop.
Hypothesis Hnil : P VNil.
Hypothesis Hbool : forall b, P (VBool b).
Hypothesis Hint : forall n, P (VInt n).
Hypothesis Hstr : forall s, P (VStr s).
Hypothesis Hbin : forall b, P (VBin b).
Hypothesis Hlist : forall l, Forall P l -> P (VList l).
Hypothesis Hdict : forall d, Forall (fun kv => P kv.2) d -> P (VDict d).

Fixpoint value_ind (v : value) : P v :=
  match v with
  | VNil => Hnil
  | VBool b => Hbool b
  | VInt n => Hint n
  | VStr s => Hstr s
  | VBin b => Hbin b
  | VList l =>
      Hlist l ((fix go (l : list value) : Forall P l :=
                  match l with
                  | [] => Forall_nil_2 P
                  | x :: r => Forall_cons_2 P x r (value_ind x) (go r)
                  end) l)
  | VDict d =>
      Hdict d ((fix go (d : list (string * value))
                  : Forall (fun kv => P kv.2) d :=
                  match d with
                  | [] => Forall_nil_2 _
                  | kv :: r => Forall_cons_2 _ kv r (value_ind kv.2) (go r)
                  end) d)
  end.
End ValueInd.

(* ===================================================================== *)
(** ** Helpers for the further properties *)
(* ===================================================================== *)

Definition item_name (it : item) : string := it.1.1.1.

(** The content of the first item of that name, if there is one. *)
Definition first_content (items : list item) (wanted : string)
    : option bytes :=
  item_content <$> List.find (fun it => String.eqb (item_name it) wanted) items.

(** A file whose only record has no integer size: [nil] for ["s"]. *)
Definition nil_size_metadata : bytes :=
  pack (VList [VDict [("n", VStr "x"); ("o", VInt 64); ("s", VNil);
                      ("m", VStr DEFAULT_MIME)]]).

Definition nil_size_file : bytes :=
  archive_file (HEADER_SIZE + len nil_size_metadata + FOOTER_SIZE) HEADER_SIZE
    HEADER_SIZE 1 1 0 [] nil_size_metadata
    (HEADER_SIZE + len nil_size_metadata) (crc32 nil_size_metadata).

(** The file of an empty archive whose header declares a wrong total
    size. *)
Definition wrong_size_file : bytes :=
  archive_file 999 HEADER_SIZE 64 0 1 0 [] (pack (VList [])) 65
               (crc32 (pack (VList []))).

(** An entry whose content is no longer than its size, when the size is a
    non-negative integer. *)
Definition within_size (e : MFAFEntry) : Prop :=
  forall s, size e = VInt s -> 0 <= s -> len (content e) <= s.

(** Objects that a [for] loop cannot take items from. *)
Definition not_iterable (v : value) : bool :=
  match v with
  | VNil | VBool _ | VInt _ => true
  | _ => false
  end.

(* ===================================================================== *)
(** ** [MFAFFile.add_file] *)
(* ===================================================================== *)

(** The files that can be opened for reading: the bytes at a path, or
    nothing when [open] raises [OSError]. *)
Definition filesystem : Type := string -> option bytes.

Fixpoint has_slash (p : string) : bool :=
  match p with
  | EmptyString => false
  | String ch rest => Ascii.eqb ch "/" || has_slash rest
  end.

(** [os.path.basename] on POSIX: what follows the last slash. *)
Fixpoint basename (p : string) : string :=
  match p with
  | EmptyString => EmptyString
  | String ch rest =>
      if has_slash rest then basename rest
      else if Ascii.eqb ch "/" then rest
      else p
  end.

(** [MFAFFile.add_file]; [name] is [None] when the caller gives none. *)
Definition add_file (fs : filesystem) (self : MFAFFile) (h : heap)
    (file_path : string) (name : option string) (mime_type : string)
    (attributes : value) : result (MFAFFile * heap) :=
  let name :=
    match name with
    | None => basename file_path
    | Some n => n
    end in
  match fs file_path with
  | None => Raise (Builtin OSError)
  | Some content =>
      let '(entry, h1) :=
        alloc (MFAFEntry_init (VStr name) content (VStr mime_type) attributes) h in
      Ok (add_entry self entry, h1)
  end.

(** A file system with one file. *)
Definition one_file (path : string) (c : bytes) : filesystem :=
  fun p => if String.eqb p path then Some c else None.

(* ===================================================================== *)
(** ** Values outside the limits, and metadata that is not a table *)
(* ===================================================================== *)


(** Objects that cannot be added to an integer: [None], [str], [bytes],
    lists and dictionaries. Integers and booleans can. *)
Definition not_a_number (v : value) : bool :=
  match v with
  | VNil | VStr _ | VBin _ | VList _ | VDict _ => true
  | VBool _ | VInt _ => false
  end.

(** [None], a boolean, or an integer of 64 bits: the values that msgpack
    writes in one piece and that have neither items nor a [get]. *)
Definition scalar (v : value) : bool :=
  match v with
  | VNil | VBool _ => true
  | VInt n => (-9223372036854775808 <=? n) && (n <? 18446744073709551616)
  | _ => false
  end.

(** Bytes that [msgpack.unpackb] refuses: no bytes at all, bytes that
    start with the tag [0xc1], which the format never uses, and the bytes
    of a value followed by at least one more byte. *)
Inductive malformed : bytes -> Prop :=
  | malformed_empty : malformed []
  | malformed_reserved (rest : bytes) : malformed (xc1 :: rest)
  | malformed_trailing (v : value) (b : byte) (rest : bytes) :
      packable RECURSE_LEVELS v = true -> wf_value v = true ->
      malformed (pack v ++ b :: rest).

(* ===================================================================== *)
(** * Properties *)
(* ===================================================================== *)

(** ** Test vectors *)

Example crc32_check : crc32 (encode_utf8 "123456789") = 0xCBF43926.
Proof. vm_compute. reflexivity. Qed.

Example crc32_empty : crc32 [] = 0.
Proof. reflexivity. Qed.

Example unpackb_example :
  unpackb (pack (VList [VDict [("n", VStr "a"); ("o", VInt 64)]; VInt (-5)]))
  = Some (VList [VDict [("n", VStr "a"); ("o", VInt 64)]; VInt (-5)]).
Proof. vm_compute. reflexivity. Qed.

Example pack_example :
  map b2z (pack (VList [VDict [("n", VStr "a"); ("o", VInt 300)]]))
  = [0x91; 0x82; 0xa1; 0x6e; 0xa1; 0x61; 0xa1; 0x6f; 0xcd; 0x01; 0x2c].
Proof. vm_compute. reflexivity. Qed.

Example extraction_scenario :
  let '(a, h) := build [("hello.txt", hello, "text/plain", [])] in
  match save a h with
  | (inr out, _) =>
      match load out [] with
      | inr (b, h') => extract_entry b h' "hello.txt" = Ok hello
      | inl _ => False
      end
  | (inl _, _) => False
  end.
Proof. vm_compute. reflexivity. Qed.

(** ** Bytes and fixed-width integers *)

Lemma b2z_range (b : byte) : 0 <= b2z b < 256.
Proof.
  unfold b2z. pose proof (Byte.to_N_bounded b). lia.
Qed.

Lemma z2b_b2z (b : byte) : z2b (b2z b) = b.
Proof.
  unfold z2b. rewrite Z.mod_small by apply b2z_range.
  unfold b2z. rewrite N2Z.id, Byte.of_to_N. reflexivity.
Qed.

Lemma b2z_z2b (z : Z) : b2z (z2b z) = z mod 256.
Proof.
  unfold z2b, b2z.
  pose proof (Z.mod_pos_bound z 256 ltac:(lia)) as Hz.
  destruct (Byte.of_N (Z.to_N (z mod 256))) as [b|] eqn:E.
  - apply Byte.to_of_N in E. rewrite E. lia.
  - apply Byte.of_N_None_iff in E. lia.
Qed.

Lemma b2z_z2b_small (z : Z) : 0 <= z < 256 -> b2z (z2b z) = z.
Proof. intros. rewrite b2z_z2b. apply Z.mod_small. assumption. Qed.

Lemma b2z_inj (a b : byte) : b2z a = b2z b -> a = b.
Proof. intros H. rewrite <- (z2b_b2z a), <- (z2b_b2z b), H. reflexivity. Qed.

Lemma len_app {A} (l k : list A) : len (l ++ k) = len l + len k.
Proof. unfold len. rewrite length_app. lia. Qed.

Lemma len_nonneg {A} (l : list A) : 0 <= len l.
Proof. unfold len. lia. Qed.

Lemma length_le_bytes (n : nat) (v : Z) : length (le_bytes n v) = n.
Proof. revert v. induction n; intros; simpl; [reflexivity | by rewrite IHn]. Qed.

Lemma le_value_le_bytes (n : nat) (v : Z) :
  le_value (le_bytes n v) = v mod 2 ^ (8 * Z.of_nat n).
Proof.
  revert v. induction n as [|n IH]; intros v.
  - simpl. rewrite Z.mod_1_r. reflexivity.
  - cbn [le_bytes le_value]. rewrite IH, b2z_z2b.
    replace (8 * Z.of_nat (S n)) with (8 + 8 * Z.of_nat n) by lia.
    rewrite Z.pow_add_r by lia. change (2 ^ 8) with 256.
    rewrite Z.rem_mul_r by lia. reflexivity.
Qed.

Lemma le_value_range (bs : bytes) : 0 <= le_value bs < 2 ^ (8 * len bs).
Proof.
  induction bs as [|b bs IH].
  - simpl. unfold len. simpl. lia.
  - cbn [le_value]. unfold len in *. cbn [length].
    replace (8 * Z.of_nat (S (length bs))) with (8 + 8 * Z.of_nat (length bs)) by lia.
    rewrite Z.pow_add_r by lia. change (2 ^ 8) with 256.
    pose proof (b2z_range b). nia.
Qed.

Lemma length_be_bytes (n : nat) (v : Z) : length (be_bytes n v) = n.
Proof. unfold be_bytes. rewrite length_rev. apply length_le_bytes. Qed.

Lemma be_value_be_bytes (n : nat) (v : Z) :
  be_value (be_bytes n v) = v mod 2 ^ (8 * Z.of_nat n).
Proof. unfold be_value, be_bytes. rewrite rev_involutive. apply le_value_le_bytes. Qed.

Lemma pack_uint_ok (n : nat) (v : Z) (bs : bytes) :
  pack_uint n v = Ok bs ->
  bs = le_bytes n v /\ 0 <= v < 2 ^ (8 * Z.of_nat n).
Proof.
  unfold pack_uint.
  destruct (Z.leb_spec 0 v), (Z.ltb_spec v (2 ^ (8 * Z.of_nat n)));
    cbn; intros E; inversion E; subst. split; [reflexivity | lia].
Qed.

Lemma pack_uint_in_range (n : nat) (v : Z) :
  0 <= v < 2 ^ (8 * Z.of_nat n) -> pack_uint n v = Ok (le_bytes n v).
Proof.
  intros [H1 H2]. unfold pack_uint.
  destruct (Z.leb_spec 0 v), (Z.ltb_spec v (2 ^ (8 * Z.of_nat n))); try lia.
  reflexivity.
Qed.

(** ** Slicing a concatenation *)
Lemma drop_app_skip {A} (l k : list A) (n : nat) :
  (length l <= n)%nat -> drop n (l ++ k) = drop (n - length l) k.
Proof. intros H. rewrite drop_app, drop_ge by lia. reflexivity. Qed.

Ltac slices :=
  repeat match goal with
  | |- context [drop ?n (?l ++ ?k)] => rewrite (drop_app_skip l k n) by lia
  | |- context [drop ?n ?l] =>
      lazymatch n with
      | O => fail
      | _ => replace n with O by lia
      end
  | |- context [drop 0 ?l] => rewrite (drop_0 l)
  | |- context [take ?n (?l ++ ?k)] => rewrite (take_app_length' l k n) by lia
  end.

Lemma unpack_header_app (a b c d e f g z : bytes) :
  length a = 8%nat -> length b = 8%nat -> length c = 8%nat -> length d = 8%nat ->
  length e = 4%nat -> length f = 2%nat -> length g = 2%nat ->
  unpack_header (a ++ b ++ c ++ d ++ e ++ f ++ g ++ z)
  = (a, le_value b, le_value c, le_value d, le_value e, le_value f, le_value g).
Proof.
  intros Ha Hb Hc Hd He Hf Hg. unfold unpack_header.
  slices. reflexivity.
Qed.

Lemma unpack_footer_app (a b c z : bytes) :
  length a = 8%nat -> length b = 8%nat -> length c = 4%nat ->
  unpack_footer (a ++ b ++ c ++ z) = (a, le_value b, le_value c).
Proof.
  intros Ha Hb Hc. unfold unpack_footer.
  slices. reflexivity.
Qed.

Lemma length_zeros n : length (zeros n) = n.
Proof. apply length_replicate. Qed.

Lemma pack_header_ok m ts co mo fc ve fl hd :
  pack_header m ts co mo fc ve fl = Ok hd ->
  hd = pack_8s m ++ le_bytes 8 ts ++ le_bytes 8 co ++ le_bytes 8 mo ++
       le_bytes 4 fc ++ le_bytes 2 ve ++ le_bytes 2 fl ++ zeros 24
  /\ 0 <= ts < 2 ^ 64 /\ 0 <= co < 2 ^ 64 /\ 0 <= mo < 2 ^ 64
  /\ 0 <= fc < 2 ^ 32 /\ 0 <= ve < 2 ^ 16 /\ 0 <= fl < 2 ^ 16.
Proof.
  unfold pack_header, bind.
  destruct (pack_uint 8 ts) as [|b1] eqn:E1; [discriminate|].
  destruct (pack_uint 8 co) as [|b2] eqn:E2; [discriminate|].
  destruct (pack_uint 8 mo) as [|b3] eqn:E3; [discriminate|].
  destruct (pack_uint 4 fc) as [|b4] eqn:E4; [discriminate|].
  destruct (pack_uint 2 ve) as [|b5] eqn:E5; [discriminate|].
  destruct (pack_uint 2 fl) as [|b6] eqn:E6; [discriminate|].
  apply pack_uint_ok in E1, E2, E3, E4, E5, E6.
  destruct E1 as [-> ?], E2 as [-> ?], E3 as [-> ?], E4 as [-> ?],
           E5 as [-> ?], E6 as [-> ?].
  intros E; inversion E; subst. repeat split; assumption || lia.
Qed.

Lemma pack_header_in_range m ts co mo fc ve fl :
  0 <= ts < 2 ^ 64 -> 0 <= co < 2 ^ 64 -> 0 <= mo < 2 ^ 64 ->
  0 <= fc < 2 ^ 32 -> 0 <= ve < 2 ^ 16 -> 0 <= fl < 2 ^ 16 ->
  pack_header m ts co mo fc ve fl =
  Ok (pack_8s m ++ le_bytes 8 ts ++ le_bytes 8 co ++ le_bytes 8 mo ++
      le_bytes 4 fc ++ le_bytes 2 ve ++ le_bytes 2 fl ++ zeros 24).
Proof.
  intros. unfold pack_header.
  rewrite !pack_uint_in_range by (simpl; lia). reflexivity.
Qed.

Lemma pack_footer_ok m me ck ft :
  pack_footer m me ck = Ok ft ->
  ft = pack_8s m ++ le_bytes 8 me ++ le_bytes 4 ck ++ zeros 44
  /\ 0 <= me < 2 ^ 64 /\ 0 <= ck < 2 ^ 32.
Proof.
  unfold pack_footer, bind.
  destruct (pack_uint 8 me) as [|b1] eqn:E1; [discriminate|].
  destruct (pack_uint 4 ck) as [|b2] eqn:E2; [discriminate|].
  apply pack_uint_ok in E1, E2. destruct E1 as [-> ?], E2 as [-> ?].
  intros E; inversion E; subst. repeat split; assumption || lia.
Qed.

Lemma pack_footer_in_range m me ck :
  0 <= me < 2 ^ 64 -> 0 <= ck < 2 ^ 32 ->
  pack_footer m me ck =
  Ok (pack_8s m ++ le_bytes 8 me ++ le_bytes 4 ck ++ zeros 44).
Proof.
  intros. unfold pack_footer.
  rewrite !pack_uint_in_range by (simpl; lia). reflexivity.
Qed.

Lemma length_pack_8s m : length (pack_8s m) = 8%nat.
Proof. unfold pack_8s. rewrite length_app, length_take, length_zeros. lia. Qed.

Lemma pack_8s_exact m : length m = 8%nat -> pack_8s m = m.
Proof.
  intros H. unfold pack_8s. rewrite take_ge by lia. rewrite H. simpl.
  apply app_nil_r.
Qed.

(** ** The checksum *)

Lemma lxor_bound (n a b : Z) :
  0 <= n -> 0 <= a < 2 ^ n -> 0 <= b < 2 ^ n -> 0 <= Z.lxor a b < 2 ^ n.
Proof.
  intros Hn Ha Hb.
  assert (Hx : 0 <= Z.lxor a b) by (apply Z.lxor_nonneg; lia).
  split; [exact Hx|].
  destruct (Z.eq_dec (Z.lxor a b) 0) as [->|Hne]; [lia|].
  assert (Hn0 : 0 < n).
  { destruct (Z.eq_dec n 0) as [->|]; [|lia]. exfalso. apply Hne.
    change (2 ^ 0) with 1 in *.
    replace a with 0 by lia. replace b with 0 by lia. reflexivity. }
  apply Z.log2_lt_pow2; [lia|].
  pose proof (Z.log2_lxor a b ltac:(lia) ltac:(lia)) as Hl.
  assert (Z.log2 a < n).
  { destruct (Z.eq_dec a 0) as [->|]; [simpl; lia|apply Z.log2_lt_pow2; lia]. }
  assert (Z.log2 b < n).
  { destruct (Z.eq_dec b 0) as [->|]; [simpl; lia|apply Z.log2_lt_pow2; lia]. }
  lia.
Qed.

Lemma lxor_cancel_r (a b c : Z) : Z.lxor a c = Z.lxor b c -> a = b.
Proof.
  intros H. rewrite <- (Z.lxor_0_r a), <- (Z.lxor_0_r b), <- (Z.lxor_nilpotent c).
  rewrite <- !Z.lxor_assoc, H. reflexivity.
Qed.

Lemma lxor_cancel_l (a b c : Z) : Z.lxor c a = Z.lxor c b -> a = b.
Proof. rewrite !(Z.lxor_comm c). apply lxor_cancel_r. Qed.

Lemma crc_shift_u32 (c : Z) : u32 c -> u32 (crc_shift c).
Proof.
  intros Hc. unfold u32, crc_shift in *. apply lxor_bound; [lia| |].
  - rewrite Z.shiftr_div_pow2 by lia. change (2 ^ 1) with 2.
    split; [apply Z.div_pos; lia|]. apply Z.div_lt_upper_bound; lia.
  - destruct (Z.testbit c 0); unfold crc_poly; lia.
Qed.

Lemma crc_shift_low_bit (c : Z) :
  u32 c -> Z.testbit (crc_shift c) 31 = Z.testbit c 0.
Proof.
  intros Hc. unfold crc_shift. rewrite Z.lxor_spec, Z.shiftr_spec by lia.
  replace (Z.testbit c (31 + 1)) with false.
  - destruct (Z.testbit c 0); reflexivity.
  - symmetry. destruct (Z.eq_dec c 0) as [->|]; [apply Z.testbit_0_l|].
    apply Z.bits_above_log2; [unfold u32 in Hc; lia|].
    apply Z.log2_lt_pow2; unfold u32 in Hc; lia.
Qed.

Lemma crc_shift_inj (a b : Z) :
  u32 a -> u32 b -> crc_shift a = crc_shift b -> a = b.
Proof.
  intros Ha Hb H.
  assert (H0 : Z.testbit a 0 = Z.testbit b 0).
  { rewrite <- (crc_shift_low_bit a Ha), <- (crc_shift_low_bit b Hb), H.
    reflexivity. }
  unfold crc_shift in H. rewrite H0 in H. apply lxor_cancel_r in H.
  apply Z.bits_inj'. intros n Hn.
  destruct (Z.eq_dec n 0) as [->|]; [exact H0|].
  replace n with ((n - 1) + 1) by lia.
  rewrite <- !Z.shiftr_spec by lia. rewrite H. reflexivity.
Qed.

Lemma crc_iter_u32 (n : nat) (c : Z) : u32 c -> u32 (Nat.iter n crc_shift c).
Proof. intros Hc. induction n; simpl; [assumption | by apply crc_shift_u32]. Qed.

Lemma crc_iter_inj (n : nat) (a b : Z) :
  u32 a -> u32 b -> Nat.iter n crc_shift a = Nat.iter n crc_shift b -> a = b.
Proof.
  intros Ha Hb. induction n as [|n IH]; simpl; [done|].
  intros H. apply IH. apply crc_shift_inj; [by apply crc_iter_u32..|exact H].
Qed.

Lemma b2z_u32 (b : byte) : u32 (b2z b).
Proof. pose proof (b2z_range b). unfold u32. lia. Qed.

Lemma crc_byte_u32 (c : Z) (b : byte) : u32 c -> u32 (crc_byte c b).
Proof.
  intros Hc. unfold crc_byte. apply crc_iter_u32.
  apply lxor_bound; [lia | exact Hc | apply b2z_u32].
Qed.

Lemma crc_byte_inj (c c' : Z) (b b' : byte) :
  u32 c -> u32 c' -> crc_byte c b = crc_byte c' b' ->
  Z.lxor c (b2z b) = Z.lxor c' (b2z b').
Proof.
  intros Hc Hc'. unfold crc_byte. apply crc_iter_inj.
  - apply lxor_bound; [lia | exact Hc | apply b2z_u32].
  - apply lxor_bound; [lia | exact Hc' | apply b2z_u32].
Qed.

Lemma crc_fold_u32 (s : bytes) (c : Z) : u32 c -> u32 (fold_left crc_byte s c).
Proof.
  revert c. induction s as [|b s IH]; intros c Hc; simpl; [assumption|].
  apply IH. by apply crc_byte_u32.
Qed.

(** Over the same bytes, different registers stay different. *)
Lemma crc_fold_inj (s : bytes) (c c' : Z) :
  u32 c -> u32 c' -> fold_left crc_byte s c = fold_left crc_byte s c' -> c = c'.
Proof.
  revert c c'. induction s as [|b s IH]; intros c c' Hc Hc'; simpl; [done|].
  intros H. apply IH in H; [|by apply crc_byte_u32..].
  apply crc_byte_inj in H; [|assumption..]. by apply lxor_cancel_r in H.
Qed.

Lemma crc32_u32 (data : bytes) : u32 (crc32 data).
Proof.
  unfold crc32. apply lxor_bound; [lia| |lia].
  apply crc_fold_u32. unfold u32. lia.
Qed.

Lemma crc32_masked (data : bytes) : Z.land (crc32 data) 0xffffffff = crc32 data.
Proof.
  change 0xffffffff with (Z.ones 32). rewrite Z.land_ones by lia.
  apply Z.mod_small. apply crc32_u32.
Qed.

(** The checksum tells apart two blobs that differ in one byte only. *)
Lemma crc32_one_byte (p s : bytes) (b b' : byte) :
  crc32 (p ++ b :: s) = crc32 (p ++ b' :: s) -> b = b'.
Proof.
  unfold crc32. intros H. apply lxor_cancel_r in H.
  rewrite !fold_left_app in H. cbn [fold_left] in H.
  assert (Hp : u32 (fold_left crc_byte p 4294967295))
    by (apply crc_fold_u32; unfold u32; lia).
  apply crc_fold_inj in H; [|by apply crc_byte_u32..].
  apply crc_byte_inj in H; [|assumption..].
  apply lxor_cancel_l in H. by apply b2z_inj.
Qed.

(** ** MessagePack: unpacking what was packed *)

Lemma pack_VList (l : list value) :
  pack (VList l) = pack_array_header (len l) ++ concat (map pack l).
Proof.
  cbn [pack]. f_equal. induction l as [|x r IH]; [reflexivity|].
  cbn [map concat]. by rewrite IH.
Qed.

Lemma pack_VDict (d : list (string * value)) :
  pack (VDict d) = pack_map_header (len d) ++ concat (map pack_pair d).
Proof.
  cbn [pack]. f_equal. induction d as [|[k x] r IH]; [reflexivity|].
  cbn [map concat]. unfold pack_pair at 1. cbn [fst snd].
  rewrite IH, <- !app_assoc. reflexivity.
Qed.

Lemma wf_VList (l : list value) : wf_value (VList l) = forallb wf_value l.
Proof.
  cbn [wf_value]. induction l as [|x r IH]; [reflexivity|].
  cbn [forallb]. by rewrite IH.
Qed.

Lemma wf_VDict (d : list (string * value)) :
  wf_value (VDict d) =
  bool_decide (NoDup (map fst d)) && forallb (fun kv => wf_value kv.2) d.
Proof.
  cbn [wf_value]. f_equal. induction d as [|[k x] r IH]; [reflexivity|].
  cbn [forallb snd]. by rewrite IH.
Qed.

Lemma len_to_nat {A} (l : list A) : Z.to_nat (len l) = length l.
Proof. unfold len. lia. Qed.

Lemma take_exact_app (n : Z) (a rest : bytes) :
  len a = n -> take_exact n (a ++ rest) = Some (a, rest).
Proof.
  intros <-. unfold take_exact. rewrite len_app.
  pose proof (len_nonneg rest).
  destruct (Z.ltb_spec (len a + len rest) (len a)); [lia|].
  rewrite len_to_nat, take_app_length, drop_app_length. reflexivity.
Qed.

Lemma read_uint_be (k : nat) (v : Z) (rest : bytes) :
  0 <= v < 2 ^ (8 * Z.of_nat k) ->
  read_uint (Z.of_nat k) (be_bytes k v ++ rest) = Some (v, rest).
Proof.
  intros Hv. unfold read_uint.
  rewrite take_exact_app by (unfold len; rewrite length_be_bytes; lia).
  cbn. rewrite be_value_be_bytes, Z.mod_small by lia. reflexivity.
Qed.

Lemma read_int_be (k : nat) (v : Z) (rest : bytes) :
  (0 < k)%nat ->
  - 2 ^ (8 * Z.of_nat k - 1) <= v < 0 ->
  read_int (Z.of_nat k) (be_bytes k v ++ rest) = Some (v, rest).
Proof.
  intros Hk Hv. unfold read_int, read_uint.
  rewrite take_exact_app by (unfold len; rewrite length_be_bytes; lia).
  cbn. rewrite be_value_be_bytes.
  assert (E : 2 ^ (8 * Z.of_nat k) = 2 * 2 ^ (8 * Z.of_nat k - 1)).
  { rewrite <- Z.pow_succ_r by lia. f_equal. lia. }
  assert (Hm : v mod 2 ^ (8 * Z.of_nat k) = v + 2 ^ (8 * Z.of_nat k)).
  { symmetry. apply Z.mod_unique with (-1); lia. }
  rewrite Hm.
  destruct (Z.ltb_spec (v + 2 ^ (8 * Z.of_nat k)) (2 ^ (8 * Z.of_nat k - 1))); [lia|].
  do 2 f_equal. lia.
Qed.

Lemma be_bytes_1 (v : Z) : be_bytes 1 v = [z2b v].
Proof. reflexivity. Qed.

(** Arithmetic with the powers of two computed. *)
Ltac range_lia :=
  repeat match goal with
  | |- context [2 ^ ?e] =>
      let x := eval vm_compute in (2 ^ e) in change (2 ^ e) with x
  end; lia.

(** Settles the comparisons of a tag by arithmetic. *)
Ltac tag_cases :=
  repeat (first
    [ match goal with
      | |- context [Z.ltb ?a ?b] => destruct (Z.ltb_spec a b); [try lia | try lia]
      | |- context [Z.eqb ?a ?b] => destruct (Z.eqb_spec a b); [try lia | try lia]
      | |- context [Z.leb ?a ?b] => destruct (Z.leb_spec a b); [try lia | try lia]
      end ]; cbv match beta).

Section UnpackHeaders.
Variable unpack_one : bytes -> option (value * bytes).

Lemma unpack_tag_int (n : Z) (rest : bytes) :
  -9223372036854775808 <= n < 18446744073709551616 ->
  match pack_int n ++ rest with
  | t :: r => unpack_tag unpack_one (b2z t) r
  | [] => None
  end = Some (VInt n, rest).
Proof.
  intros Hn. unfold pack_int.
  destruct (Z.leb_spec 0 n).
  - destruct (Z.ltb_spec n 128); [|destruct (Z.ltb_spec n 256);
      [|destruct (Z.ltb_spec n 65536); [|destruct (Z.ltb_spec n 4294967296)]]];
    cbn [app].
    + rewrite b2z_z2b_small by lia. unfold unpack_tag.
      destruct (Z.ltb_spec n 128); [reflexivity|lia].
    + change (z2b n :: rest) with (be_bytes 1 n ++ rest).
      change (b2z xcc) with 204. cbn -[read_uint be_bytes].
      rewrite (read_uint_be 1) by range_lia. reflexivity.
    + change (b2z xcd) with 205. cbn -[read_uint be_bytes].
      rewrite (read_uint_be 2) by range_lia. reflexivity.
    + change (b2z xce) with 206. cbn -[read_uint be_bytes].
      rewrite (read_uint_be 4) by range_lia. reflexivity.
    + change (b2z xcf) with 207. cbn -[read_uint be_bytes].
      rewrite (read_uint_be 8) by range_lia. reflexivity.
  - destruct (Z.leb_spec (-32) n); [|destruct (Z.leb_spec (-128) n);
      [|destruct (Z.leb_spec (-32768) n); [|destruct (Z.leb_spec (-2147483648) n)]]];
    cbn [app].
    + rewrite b2z_z2b.
      assert (Hm : n mod 256 = n + 256)
        by (symmetry; apply Z.mod_unique with (-1); lia).
      rewrite Hm. unfold unpack_tag. tag_cases.
      replace (n + 256 - 256) with n by lia. reflexivity.
    + change (z2b n :: rest) with (be_bytes 1 n ++ rest).
      change (b2z xd0) with 208. cbn -[read_int be_bytes].
      rewrite (read_int_be 1) by range_lia. reflexivity.
    + change (b2z xd1) with 209. cbn -[read_int be_bytes].
      rewrite (read_int_be 2) by range_lia. reflexivity.
    + change (b2z xd2) with 210. cbn -[read_int be_bytes].
      rewrite (read_int_be 4) by range_lia. reflexivity.
    + change (b2z xd3) with 211. cbn -[read_int be_bytes].
      rewrite (read_int_be 8) by range_lia. reflexivity.
Qed.

Lemma unpack_tag_str_header (n : Z) (body : bytes) :
  0 <= n < 4294967296 ->
  match pack_str_header n ++ body with
  | t :: r => unpack_tag unpack_one (b2z t) r
  | [] => None
  end = unpack_str n body.
Proof.
  intros Hn. unfold pack_str_header.
  destruct (Z.ltb_spec n 32); [|destruct (Z.ltb_spec n 256);
    [|destruct (Z.ltb_spec n 65536)]]; cbn [app].
  - rewrite b2z_z2b_small by lia. unfold unpack_tag. tag_cases.
    replace (160 + n - 160) with n by lia. reflexivity.
  - change (z2b n :: body) with (be_bytes 1 n ++ body).
    change (b2z xd9) with 217. cbn -[read_uint be_bytes].
    rewrite (read_uint_be 1) by range_lia. reflexivity.
  - change (b2z xda) with 218. cbn -[read_uint be_bytes].
    rewrite (read_uint_be 2) by range_lia. reflexivity.
  - change (b2z xdb) with 219. cbn -[read_uint be_bytes].
    rewrite (read_uint_be 4) by range_lia. reflexivity.
Qed.

Lemma unpack_tag_bin_header (n : Z) (body : bytes) :
  0 <= n < 4294967296 ->
  match pack_bin_header n ++ body with
  | t :: r => unpack_tag unpack_one (b2z t) r
  | [] => None
  end = unpack_bin n body.
Proof.
  intros Hn. unfold pack_bin_header.
  destruct (Z.ltb_spec n 256); [|destruct (Z.ltb_spec n 65536)]; cbn [app].
  - change (z2b n :: body) with (be_bytes 1 n ++ body).
    change (b2z xc4) with 196. cbn -[read_uint be_bytes].
    rewrite (read_uint_be 1) by range_lia. reflexivity.
  - change (b2z xc5) with 197. cbn -[read_uint be_bytes].
    rewrite (read_uint_be 2) by range_lia. reflexivity.
  - change (b2z xc6) with 198. cbn -[read_uint be_bytes].
    rewrite (read_uint_be 4) by range_lia. reflexivity.
Qed.

Lemma unpack_tag_array_header (n : Z) (body : bytes) :
  0 <= n < 4294967296 ->
  match pack_array_header n ++ body with
  | t :: r => unpack_tag unpack_one (b2z t) r
  | [] => None
  end = unpack_array unpack_one n body.
Proof.
  intros Hn. unfold pack_array_header.
  destruct (Z.ltb_spec n 16); [|destruct (Z.ltb_spec n 65536)]; cbn [app].
  - rewrite b2z_z2b_small by lia. unfold unpack_tag. tag_cases.
    replace (144 + n - 144) with n by lia. reflexivity.
  - change (b2z xdc) with 220. cbn -[read_uint be_bytes unpack_array].
    rewrite (read_uint_be 2) by range_lia. reflexivity.
  - change (b2z xdd) with 221. cbn -[read_uint be_bytes unpack_array].
    rewrite (read_uint_be 4) by range_lia. reflexivity.
Qed.

Lemma unpack_tag_map_header (n : Z) (body : bytes) :
  0 <= n < 4294967296 ->
  match pack_map_header n ++ body with
  | t :: r => unpack_tag unpack_one (b2z t) r
  | [] => None
  end = unpack_map unpack_one n body.
Proof.
  intros Hn. unfold pack_map_header.
  destruct (Z.ltb_spec n 16); [|destruct (Z.ltb_spec n 65536)]; cbn [app].
  - rewrite b2z_z2b_small by lia. unfold unpack_tag. tag_cases.
    replace (128 + n - 128) with n by lia. reflexivity.
  - change (b2z xde) with 222. cbn -[read_uint be_bytes unpack_map].
    rewrite (read_uint_be 2) by range_lia. reflexivity.
  - change (b2z xdf) with 223. cbn -[read_uint be_bytes unpack_map].
    rewrite (read_uint_be 4) by range_lia. reflexivity.
Qed.

Lemma unpack_tag_str (s : string) (rest : bytes) :
  str_fits s = true ->
  match pack_str s ++ rest with
  | t :: r => unpack_tag unpack_one (b2z t) r
  | [] => None
  end = Some (VStr s, rest).
Proof.
  unfold str_fits, pack_str. intros Hs. apply Z.ltb_lt in Hs.
  rewrite <- app_assoc.
  rewrite unpack_tag_str_header by (pose proof (len_nonneg (encode_utf8 s)); lia).
  unfold unpack_str. rewrite take_exact_app by reflexivity. cbn.
  unfold decode_utf8, encode_utf8. rewrite string_of_list_byte_of_string.
  reflexivity.
Qed.
End UnpackHeaders.

Lemma dict_set_fresh (acc : list (string * value)) (k : string) (v : value) :
  k ∉ map fst acc -> dict_set acc k v = acc ++ [(k, v)].
Proof.
  induction acc as [|[k' v'] acc IH]; intros Hk; [reflexivity|].
  cbn [dict_set]. cbn [map fst] in Hk. apply not_elem_of_cons in Hk as [Hne Hk].
  destruct (String.eqb_spec k' k); [congruence|].
  cbn [app]. by rewrite IH.
Qed.

Section UnpackSequences.
Variable unpack_one : bytes -> option (value * bytes).

Lemma unpack_items_ok (l : list value) (rest : bytes) :
  Forall (fun x => forall r, unpack_one (pack x ++ r) = Some (x, r)) l ->
  unpack_items unpack_one (length l) (concat (map pack l) ++ rest)
  = Some (l, rest).
Proof.
  induction 1 as [|x l Hx _ IH]; [reflexivity|].
  cbn [length unpack_items map concat]. rewrite <- app_assoc, Hx. cbn.
  rewrite IH. reflexivity.
Qed.

Lemma unpack_pairs_ok (d acc : list (string * value)) (rest : bytes) :
  Forall (fun kv =>
            (forall r, unpack_one (pack_str kv.1 ++ r) = Some (VStr kv.1, r)) /\
            (forall r, unpack_one (pack kv.2 ++ r) = Some (kv.2, r))) d ->
  NoDup (map fst acc ++ map fst d) ->
  unpack_pairs unpack_one (length d) acc (concat (map pack_pair d) ++ rest)
  = Some (acc ++ d, rest).
Proof.
  intros Hd. revert acc. induction Hd as [|[k x] d [Hk Hx] _ IH]; intros acc Hnd.
  - cbn. by rewrite app_nil_r.
  - cbn [length unpack_pairs map concat]. unfold pack_pair at 1.
    cbn [fst snd] in *. rewrite <- !app_assoc, Hk. cbn. rewrite Hx. cbn.
    assert (Hfresh : k ∉ map fst acc).
    { apply NoDup_app in Hnd as (_ & Hdis & _). intros Hin.
      apply (Hdis k Hin). left. }
    rewrite dict_set_fresh by exact Hfresh.
    rewrite IH.
    + by rewrite <- app_assoc.
    + rewrite map_app. cbn [map fst]. rewrite <- app_assoc. exact Hnd.
Qed.
End UnpackSequences.

Lemma length_pack_in (l : list value) (x : value) :
  x ∈ l -> (length (pack x) <= length (concat (map pack l)))%nat.
Proof.
  induction 1 as [x l|x y l _ IH]; cbn [map concat]; rewrite length_app; lia.
Qed.

Lemma length_pack_pair_in (d : list (string * value)) (kv : string * value) :
  kv ∈ d ->
  (S (length (pack kv.2)) <= length (concat (map pack_pair d)))%nat.
Proof.
  induction 1 as [kv d|kv y d _ IH]; cbn [map concat]; rewrite length_app.
  - unfold pack_pair, pack_str. rewrite !length_app.
    assert (0 < length (pack_str_header (len (encode_utf8 kv.1))))%nat; [|lia].
    unfold pack_str_header. repeat case_match; cbn; lia.
  - lia.
Qed.

Lemma length_array_header (n : Z) : (0 < length (pack_array_header n))%nat.
Proof. unfold pack_array_header. repeat case_match; cbn; lia. Qed.

Lemma length_map_header (n : Z) : (0 < length (pack_map_header n))%nat.
Proof. unfold pack_map_header. repeat case_match; cbn; lia. Qed.

(** Unpacking the bytes of a value gives the value back and leaves what
    follows it, when the fuel covers its bytes. *)
Lemma unpack_pack (v : value) :
  forall (nest fuel : nat) (rest : bytes),
  packable nest v = true -> wf_value v = true ->
  (length (pack v) <= fuel)%nat ->
  unpack fuel (pack v ++ rest) = Some (v, rest).
Proof.
  induction v as [|b|n|s|b|l IH|d IH] using value_ind;
    intros nest fuel rest Hp Hwf Hfuel;
    (destruct nest as [|nest]; [discriminate|]); cbn [packable] in Hp.
  - destruct fuel; [cbn in Hfuel; lia|]. reflexivity.
  - destruct fuel; [destruct b; cbn in Hfuel; lia|]. destruct b; reflexivity.
  - destruct fuel as [|fuel].
    { unfold pack, pack_int in Hfuel. repeat case_match; cbn in Hfuel; lia. }
    cbn [unpack pack]. apply unpack_tag_int.
    apply andb_true_iff in Hp as [H1 H2]. lia.
  - destruct fuel as [|fuel].
    { unfold pack, pack_str, pack_str_header in Hfuel.
      rewrite length_app in Hfuel. repeat case_match; cbn in Hfuel; lia. }
    cbn [unpack pack]. by apply unpack_tag_str.
  - destruct fuel as [|fuel].
    { unfold pack, pack_bin_header in Hfuel.
      rewrite length_app in Hfuel. repeat case_match; cbn in Hfuel; lia. }
    cbn [unpack pack]. apply Z.ltb_lt in Hp. rewrite <- app_assoc.
    rewrite unpack_tag_bin_header by (pose proof (len_nonneg b); lia).
    unfold unpack_bin. by rewrite take_exact_app.
  - rewrite pack_VList in *. rewrite length_app in Hfuel.
    pose proof (length_array_header (len l)).
    destruct fuel as [|fuel]; [lia|].
    apply andb_true_iff in Hp as [Hlen Hp]. apply Z.ltb_lt in Hlen.
    rewrite wf_VList in Hwf.
    cbn [unpack]. rewrite <- app_assoc.
    rewrite unpack_tag_array_header by (pose proof (len_nonneg l); lia).
    unfold unpack_array. rewrite len_to_nat, unpack_items_ok; [reflexivity|].
    rewrite Forall_forall in IH. apply Forall_forall. intros x Hx r.
    rewrite forallb_forall in Hp, Hwf.
    apply (IH x Hx nest).
    + apply Hp. by apply list_elem_of_In.
    + apply Hwf. by apply list_elem_of_In.
    + pose proof (length_pack_in l x Hx). lia.
  - rewrite pack_VDict in *. rewrite length_app in Hfuel.
    pose proof (length_map_header (len d)).
    destruct fuel as [|fuel]; [lia|].
    apply andb_true_iff in Hp as [Hlen Hp]. apply Z.ltb_lt in Hlen.
    rewrite wf_VDict in Hwf. apply andb_true_iff in Hwf as [Hnd Hwf].
    apply bool_decide_eq_true in Hnd.
    cbn [unpack]. rewrite <- app_assoc.
    rewrite unpack_tag_map_header by (pose proof (len_nonneg d); lia).
    unfold unpack_map. rewrite len_to_nat, unpack_pairs_ok; [reflexivity| |exact Hnd].
    rewrite Forall_forall in IH. apply Forall_forall. intros kv Hkv.
    rewrite forallb_forall in Hp, Hwf.
    pose proof (length_pack_pair_in d kv Hkv) as Hl.
    specialize (Hp kv ltac:(by apply list_elem_of_In)).
    apply andb_true_iff in Hp as [Hk Hp].
    destruct fuel as [|fuel]; [lia|]. split; intros r.
    + cbn [unpack]. by apply unpack_tag_str.
    + apply (IH kv Hkv nest); [exact Hp| |lia].
      apply Hwf. by apply list_elem_of_In.
Qed.

Lemma unpackb_pack (v : value) (nest : nat) :
  packable nest v = true -> wf_value v = true -> unpackb (pack v) = Some v.
Proof.
  intros Hp Hwf. unfold unpackb.
  rewrite <- (app_nil_r (pack v)) at 2.
  rewrite (unpack_pack v nest) by (assumption || lia). reflexivity.
Qed.

(** What [packable] accepts, the packer packs without an exception. *)
Lemma first_error_None {E : Type} (l : list (option E)) :
  Forall (fun o => o = None) l -> first_error l = None.
Proof. induction 1 as [|o l -> _ IH]; [reflexivity|exact IH]. Qed.

Lemma pack_error_packable (nest : nat) (v : value) :
  packable nest v = true -> pack_error nest v = None.
Proof.
  revert v. induction nest as [|nest IH]; intros v Hp; [discriminate|].
  destruct v as [|b|n|s|b|l|d]; cbn [packable pack_error] in *;
    try reflexivity; try (by rewrite Hp).
  - apply andb_true_iff in Hp as [-> Hp].
    apply first_error_None, Forall_map, Forall_forall. intros x Hx.
    apply IH. rewrite forallb_forall in Hp. apply Hp.
    by apply list_elem_of_In.
  - apply andb_true_iff in Hp as [-> Hp].
    apply first_error_None. rewrite forallb_forall in Hp.
    induction d as [|kv d IHd]; [constructor|].
    cbn [flat_map app].
    pose proof (Hp kv ltac:(by left)) as Hkv.
    apply andb_true_iff in Hkv as [Hk Hx].
    constructor; [|constructor; [by apply IH|]].
    + destruct nest; [by destruct (kv.2)|]. cbn [pack_error]. by rewrite Hk.
    + apply IHd. intros y Hy. apply Hp. by right.
Qed.

(** ** Building and saving *)

Lemma foldl_append_item (items : list item) (a : MFAFFile) (h : heap) :
  foldl append_item (a, h) items =
  ({| entries := entries a ++ seq (length h) (length items);
      version := version a; flags := flags a; total_size := total_size a |},
   h ++ map entry_of_item items).
Proof.
  revert a h. induction items as [|[[[n c] m] d] items IH]; intros a h.
  - cbn. rewrite !app_nil_r. by destruct a.
  - cbn [foldl]. unfold append_item at 2. cbn [fst snd alloc].
    rewrite IH. cbn [entries version flags total_size add_entry map length seq].
    rewrite length_app, <- !app_assoc. cbn [length app entry_of_item].
    rewrite Nat.add_1_r. reflexivity.
Qed.

Lemma build_spec (items : list item) :
  build items =
  ({| entries := seq 0 (length items); version := 1; flags := 0;
      total_size := HEADER_SIZE + FOOTER_SIZE |},
   map entry_of_item items).
Proof. unfold build. rewrite foldl_append_item. reflexivity. Qed.

Lemma map_deref_seq {B} (f : MFAFEntry -> B) (pre es post : heap) :
  map (fun r => f ((pre ++ es ++ post) !!! r)) (seq (length pre) (length es))
  = map f es.
Proof.
  revert pre. induction es as [|e es IH]; intros pre; [reflexivity|].
  cbn [length seq map]. change ((e :: es) ++ post) with (e :: (es ++ post)).
  f_equal.
  - by rewrite list_lookup_total_middle.
  - specialize (IH (pre ++ [e])). rewrite length_app in IH. cbn [length] in IH.
    rewrite Nat.add_1_r, <- app_assoc in IH. exact IH.
Qed.

Lemma map_deref_all {B} (f : MFAFEntry -> B) (es : heap) :
  map (fun r => f (es !!! r)) (seq 0 (length es)) = map f es.
Proof.
  pose proof (map_deref_seq f [] es []) as H. cbn [length app] in H.
  by rewrite app_nil_r in H.
Qed.

Lemma map_deref_len {B} (f : MFAFEntry -> B) (es : heap) (n : nat) :
  n = length es -> map (fun r => f (es !!! r)) (seq 0 n) = map f es.
Proof. intros ->. apply map_deref_all. Qed.

Lemma set_offsets_fresh (es pre : heap) (cur : Z) :
  Forall sized es ->
  set_offsets (seq (length pre) (length es)) cur (pre ++ es)
  = (Ok (cur + sum_Z (map (fun e => len (content e)) es)),
     pre ++ lay_out cur es).
Proof.
  intros Hes. revert pre cur.
  induction Hes as [|e es He _ IH]; intros pre cur.
  - cbn. by rewrite Z.add_0_r.
  - cbn [length seq set_offsets].
    assert (Halt : alter (fun entry => set_offset entry (VInt cur)) (length pre)
                     (pre ++ e :: es) = pre ++ set_offset e (VInt cur) :: es).
    { rewrite alter_app_r_alt by lia. by rewrite Nat.sub_diag. }
    rewrite Halt, list_lookup_total_middle by reflexivity.
    cbn [size set_offset]. rewrite He. cbn [as_int].
    specialize (IH (pre ++ [set_offset e (VInt cur)]) (cur + len (content e))).
    rewrite length_app in IH. cbn [length] in IH.
    rewrite Nat.add_1_r, <- !app_assoc in IH. cbn [app] in IH.
    rewrite IH. cbn [map sum_Z foldr lay_out]. f_equal.
    f_equal. unfold sum_Z. lia.
Qed.

Lemma length_lay_out (cur : Z) (es : heap) : length (lay_out cur es) = length es.
Proof. revert cur. induction es; intros; cbn; [done | by rewrite IHes]. Qed.

Lemma lay_out_content (cur : Z) (es : heap) :
  map content (lay_out cur es) = map content es.
Proof. revert cur. induction es; intros; cbn; [done | by rewrite IHes]. Qed.

Lemma entry_of_item_content (items : list item) :
  map content (map entry_of_item items) = map item_content items.
Proof.
  induction items as [|[[[n c] m] a] items IH]; [done|].
  cbn [map]. rewrite IH. reflexivity.
Qed.

Lemma entry_of_item_sized (items : list item) :
  Forall sized (map entry_of_item items).
Proof.
  induction items as [|[[[n c] m] a] items IH]; constructor; [reflexivity|exact IH].
Qed.

Lemma len_concat (ls : list bytes) : len (concat ls) = sum_Z (map len ls).
Proof.
  induction ls as [|l ls IH]; [reflexivity|].
  cbn [concat map sum_Z foldr]. rewrite len_app, IH. reflexivity.
Qed.

Lemma sum_content_lengths (items : list item) :
  sum_Z (map (fun e => len (content e)) (map entry_of_item items))
  = len (contents_of items).
Proof.
  unfold contents_of. rewrite len_concat, <- entry_of_item_content.
  rewrite !map_map. reflexivity.
Qed.

Lemma packable_S_VDict (nest : nat) (d : list (string * value)) :
  packable (S nest) (VDict d) =
  (len d <? 4294967296) &&
  forallb (fun kv => str_fits kv.1 && packable nest kv.2) d.
Proof. reflexivity. Qed.

Lemma packable_S_VList (nest : nat) (l : list value) :
  packable (S nest) (VList l) =
  (len l <? 4294967296) && forallb (packable nest) l.
Proof. reflexivity. Qed.

(** The record of a laid-out item is accepted by the packer and has
    distinct keys. *)
Lemma to_dict_item_ok (it : item) (cur : Z) :
  item_ok it = true ->
  0 <= cur < 9223372036854775808 ->
  len (item_content it) < 9223372036854775808 ->
  packable (RECURSE_LEVELS - 1) (to_dict (set_offset (entry_of_item it) (VInt cur))) = true
  /\ wf_value (to_dict (set_offset (entry_of_item it) (VInt cur))) = true.
Proof.
  destruct it as [[[n c] m] a]. unfold item_ok, item_content. cbn [fst snd].
  intros Hok Hcur Hc.
  apply andb_true_iff in Hok as [Hok Hwf].
  apply andb_true_iff in Hok as [Hok Hpa].
  apply andb_true_iff in Hok as [Hn Hm].
  pose proof (len_nonneg c).
  assert (Hco : (-9223372036854775808 <=? cur) && (cur <? 18446744073709551616) = true)
    by (apply andb_true_iff; split; [apply Z.leb_le | apply Z.ltb_lt]; lia).
  assert (Hcs : (-9223372036854775808 <=? len c) && (len c <? 18446744073709551616) = true)
    by (apply andb_true_iff; split; [apply Z.leb_le | apply Z.ltb_lt]; lia).
  change (RECURSE_LEVELS - 1)%nat with (S (S 509)).
  change (RECURSE_LEVELS - 2)%nat with (S 509) in Hpa.
  unfold to_dict, entry_of_item, MFAFEntry_init, set_offset.
  cbn [name content mime_type attributes offset size].
  destruct a as [|p a].
  - cbn [truthy]. rewrite packable_S_VDict. split; [|reflexivity].
    cbn [forallb fst snd]. cbn [packable]. rewrite Hn, Hm, Hco, Hcs. reflexivity.
  - cbn [truthy]. cbn [dict_set String.eqb Ascii.eqb Bool.eqb].
    rewrite packable_S_VDict, wf_VDict. split.
    + cbn [forallb fst snd]. rewrite Hpa. cbn [packable].
      rewrite Hn, Hm, Hco, Hcs. reflexivity.
    + cbn [forallb fst snd]. rewrite Hwf. reflexivity.
Qed.

Lemma metadata_ok (items : list item) (cur : Z) :
  forallb item_ok items = true ->
  0 <= cur ->
  cur + len (contents_of items) < 9223372036854775808 ->
  Forall (fun v => packable (RECURSE_LEVELS - 1) v = true /\ wf_value v = true)
         (map to_dict (lay_out cur (map entry_of_item items))).
Proof.
  revert cur. induction items as [|it items IH]; intros cur Hok Hcur Hlim.
  - constructor.
  - cbn [forallb] in Hok. apply andb_true_iff in Hok as [Hit Hok].
    unfold contents_of in Hlim. cbn [map concat] in Hlim.
    rewrite len_app in Hlim. fold (contents_of items) in Hlim.
    pose proof (len_nonneg (item_content it)).
    pose proof (len_nonneg (contents_of items)).
    cbn [map lay_out]. constructor.
    + apply to_dict_item_ok; [exact Hit|lia|lia].
    + replace (content (entry_of_item it)) with (item_content it)
        by (by destruct it as [[[? ?] ?] ?]).
      apply IH; [exact Hok|lia|lia].
Qed.

Lemma encodable_inv (items : list item) :
  encodable items = true ->
  forallb item_ok items = true /\ len items < 4294967296 /\
  archive_size items < 9223372036854775808.
Proof.
  unfold encodable. intros H.
  apply andb_true_iff in H as [H H3]. apply andb_true_iff in H as [H1 H2].
  apply Z.ltb_lt in H2, H3. auto.
Qed.

Lemma packb_metadata (items : list item) :
  encodable items = true ->
  packb (VList (map to_dict (lay_out HEADER_SIZE (map entry_of_item items))))
  = Ok (metadata_of items)
  /\ unpackb (metadata_of items)
     = Some (VList (map to_dict (lay_out HEADER_SIZE (map entry_of_item items)))).
Proof.
  intros Henc. apply encodable_inv in Henc as (Hok & Hn & Hsz).
  unfold archive_size in Hsz.
  pose proof (len_nonneg (contents_of items)).
  pose proof (len_nonneg (metadata_of items)).
  pose proof (metadata_ok items HEADER_SIZE Hok) as Hmd.
  unfold HEADER_SIZE, FOOTER_SIZE in *.
  specialize (Hmd ltac:(lia) ltac:(lia)).
  set (mdl := map to_dict (lay_out 64 (map entry_of_item items))) in *.
  assert (Hp : packable RECURSE_LEVELS (VList mdl) = true).
  { change RECURSE_LEVELS with (S (RECURSE_LEVELS - 1)).
    rewrite packable_S_VList. apply andb_true_iff. split.
    - apply Z.ltb_lt. unfold mdl, len.
      rewrite length_map, length_lay_out, length_map. exact Hn.
    - apply forallb_forall. intros v Hv. apply list_elem_of_In in Hv.
      rewrite Forall_forall in Hmd. by apply Hmd. }
  assert (Hw : wf_value (VList mdl) = true).
  { rewrite wf_VList. apply forallb_forall. intros v Hv.
    apply list_elem_of_In in Hv. rewrite Forall_forall in Hmd. by apply Hmd. }
  split.
  - unfold packb. by rewrite (pack_error_packable _ _ Hp).
  - unfold metadata_of. change HEADER_SIZE with 64. fold mdl.
    by apply (unpackb_pack _ RECURSE_LEVELS).
Qed.

(** Saving a built archive writes [archive_bytes] and leaves the entries
    laid out from the end of the header. *)
Lemma save_build (items : list item) :
  encodable items = true ->
  save (build items).1 (build items).2 =
  (Ok (archive_bytes items),
   ({| entries := seq 0 (length items); version := 1; flags := 0;
       total_size := archive_size items |},
    lay_out HEADER_SIZE (map entry_of_item items))).
Proof.
  intros Henc. pose proof (packb_metadata items Henc) as [Hpk _].
  apply encodable_inv in Henc as (Hok & Hn & Hsz).
  rewrite build_spec. cbn [fst snd]. unfold save.
  cbn [entries version flags total_size].
  set (es := map entry_of_item items) in *.
  assert (Hlen : length items = length es) by (unfold es; by rewrite length_map).
  rewrite Hlen.
  pose proof (set_offsets_fresh es [] HEADER_SIZE (entry_of_item_sized items)) as Hso.
  cbn [length app] in Hso. rewrite Hso.
  rewrite (map_deref_all (fun e => len (content e))).
  cbv beta match delta [Ok].
  rewrite (map_deref_len to_dict) by (by rewrite length_lay_out).
  rewrite Hpk. cbv beta match delta [Ok].
  pose proof (sum_content_lengths items) as Hsum. fold es in Hsum.
  rewrite !Hsum.
  unfold write_archive, set_total_size.
  cbn [entries version flags total_size].
  unfold archive_size in Hsz.
  pose proof (len_nonneg (contents_of items)).
  pose proof (len_nonneg (metadata_of items)).
  pose proof (len_nonneg items).
  unfold HEADER_SIZE, FOOTER_SIZE in *.
  rewrite pack_header_in_range; [|range_lia| range_lia | range_lia| |range_lia|range_lia].
  2:{ unfold len at 1 2. rewrite length_seq, <- Hlen. fold (len items). range_lia. }
  rewrite crc32_masked.
  rewrite pack_footer_in_range; [|range_lia|apply crc32_u32].
  cbn [bind Ok].
  rewrite (map_deref_len content) by (by rewrite length_lay_out).
  rewrite lay_out_content.
  pose proof (entry_of_item_content items) as Hct. fold es in Hct. rewrite Hct.
  fold (contents_of items).
  rewrite !pack_8s_exact by reflexivity.
  unfold archive_bytes, archive_size, HEADER_SIZE, FOOTER_SIZE.
  replace (len (seq 0 (length es))) with (len items)
    by (unfold len; rewrite length_seq; lia).
  reflexivity.
Qed.


(** ** The gates of [load] *)

Lemma f_read_header (data : bytes) :
  f_read data HEADER_SIZE 0 = Ok (take 64 data, 0 + len (take 64 data)).
Proof. reflexivity. Qed.

Lemma f_seek_end_footer (data : bytes) :
  64 <= len data -> f_seek_end data (- FOOTER_SIZE) = Ok (len data - 64).
Proof.
  intros H. unfold f_seek_end, FOOTER_SIZE.
  destruct (Z.ltb_spec (len data + - (64)) 0); [lia|]. reflexivity.
Qed.

Lemma f_read_footer (data : bytes) :
  64 <= len data ->
  f_read data FOOTER_SIZE (len data - 64)
  = Ok (drop (length data - 64) data, len data - 64 + 64).
Proof.
  intros H. unfold f_read, FOOTER_SIZE, slice.
  cbn [Z.ltb Z.leb Z.eqb Z.compare Pos.compare Pos.compare_cont].
  replace (Z.to_nat (len data - 64)) with (length data - 64)%nat
    by (unfold len; lia).
  rewrite take_ge by (rewrite length_drop; unfold len in H; lia).
  do 3 f_equal. unfold len in *. rewrite length_drop. lia.
Qed.

Lemma load_short (data : bytes) (h : heap) :
  len data < 64 ->
  load data h = Raise (MFAFSizeError "File too small to contain a valid header").
Proof.
  intros Hlen. unfold load. rewrite f_read_header. cbn [bind Ok].
  assert (len (take 64 data) < 64).
  { unfold len in *. rewrite length_take. lia. }
  unfold HEADER_SIZE.
  destruct (Z.ltb_spec (len (take 64 data)) 64); [reflexivity|lia].
Qed.

Lemma load_unfold (data : bytes) (h : heap) :
  64 <= len data ->
  load data h =
  let '(magic, total_size, content_offset, metadata_offset,
        file_count, version, flags) := header_of data in
  if negb (bool_decide (magic = HEADER_MAGIC))
  then Raise (MFAFMagicError "Invalid header magic number")
  else
  if 1 <? version
  then Raise (MFAFVersionError ("Unsupported version: " +:+ pretty version))
  else
  let '(footer_magic, metadata_end, checksum) := footer_of data in
  if negb (bool_decide (footer_magic = FOOTER_MAGIC))
  then Raise (MFAFMagicError "Invalid footer magic number")
  else
  if negb (sizes_consistent total_size metadata_offset metadata_end)
  then Raise INCONSISTENT
  else load_tail data total_size metadata_offset metadata_end checksum
                 version flags h.
Proof.
  intros Hlen. unfold load. rewrite f_read_header. cbn [bind Ok].
  assert (Hh : len (take 64 data) = 64).
  { unfold len in *. rewrite length_take. lia. }
  rewrite Hh. unfold HEADER_SIZE at 1.
  change (64 <? 64) with false. cbv beta match.
  unfold header_of.
  destruct (unpack_header (take 64 data)) as [[[[[[magic ts] co] mo] fc] ve] fl].
  destruct (negb (bool_decide (magic = HEADER_MAGIC))); [reflexivity|].
  destruct (1 <? ve); [reflexivity|].
  rewrite f_seek_end_footer by exact Hlen. cbn [bind Ok].
  rewrite f_read_footer by exact Hlen. cbn [bind Ok].
  assert (Hf : len (drop (length data - 64) data) = 64).
  { unfold len in *. rewrite length_drop. lia. }
  rewrite Hf. unfold FOOTER_SIZE at 1.
  change (64 <? 64) with false. cbv beta match.
  unfold footer_of.
  destruct (unpack_footer (drop (length data - 64) data)) as [[fm me] ck].
  reflexivity.
Qed.

Lemma f_seek_error (offset : Z) (e : exn) :
  f_seek offset = inl e -> is_Builtin e = true.
Proof.
  unfold f_seek. repeat case_match; intros Heq; inversion Heq; reflexivity.
Qed.

Lemma f_read_error (data : bytes) (n pos : Z) (e : exn) :
  f_read data n pos = inl e -> is_Builtin e = true.
Proof.
  unfold f_read. repeat case_match; intros Heq; inversion Heq; reflexivity.
Qed.

Lemma seek_value_error (v : value) (e : exn) :
  seek_value v = inl e -> is_Builtin e = true.
Proof.
  unfold seek_value. destruct (as_int v); [apply f_seek_error|].
  intros H; inversion H; reflexivity.
Qed.

Lemma read_value_error (data : bytes) (v : value) (pos : Z) (e : exn) :
  read_value data v pos = inl e -> is_Builtin e = true.
Proof.
  unfold read_value.
  destruct v; cbn [as_int]; try apply f_read_error;
    intros H; inversion H; reflexivity.
Qed.

Lemma from_dict_error (v : value) (e : exn) :
  from_dict v = inl e -> is_Builtin e = true.
Proof. destruct v; intros H; inversion H; reflexivity. Qed.

Lemma iterate_error (v : value) (e : exn) :
  iterate v = inl e -> is_Builtin e = true.
Proof. destruct v; intros H; inversion H; reflexivity. Qed.

(** The loop over the records ends with a built-in exception or not at
    all. *)
Lemma load_entries_error (data : bytes) (items : list value)
    (mfaf : MFAFFile) (h : heap) (e : exn) :
  load_entries data items mfaf h = inl e -> is_Builtin e = true.
Proof.
  revert mfaf h. induction items as [|it items IH]; intros mfaf h.
  - intros H; inversion H.
  - cbn [load_entries]. unfold bind.
    destruct (from_dict it) as [e1|entry] eqn:E1.
    { intros H; inversion H; subst. by apply from_dict_error in E1. }
    destruct (seek_value (offset entry)) as [e2|pos] eqn:E2.
    { intros H; inversion H; subst. by apply seek_value_error in E2. }
    destruct (read_value data (size entry) pos) as [e3|[chunk pos']] eqn:E3.
    { intros H; inversion H; subst. by apply read_value_error in E3. }
    apply IH.
Qed.

Lemma load_tail_error (data : bytes) (ts mo me ck ve fl : Z) (h : heap) (e : exn) :
  load_tail data ts mo me ck ve fl h = inl e -> late_error e = true.
Proof.
  unfold load_tail, bind.
  destruct (f_seek mo) as [e1|pos] eqn:E1.
  { intros H; inversion H; subst. apply f_seek_error in E1. by destruct e. }
  destruct (f_read data (me - mo) pos) as [e2|[md pos']] eqn:E2.
  { intros H; inversion H; subst. apply f_read_error in E2. by destruct e. }
  destruct (negb _).
  { intros H; inversion H; reflexivity. }
  destruct (unpackb md) as [l|].
  2:{ intros H; inversion H; reflexivity. }
  destruct (iterate l) as [e3|items] eqn:E3.
  { intros H; inversion H; subst. apply iterate_error in E3. by destruct e. }
  intros H. apply load_entries_error in H. by destruct e.
Qed.

(** No path of [load] raises [MFAFRangeError]. *)
Lemma load_never_range_error (data : bytes) (h : heap) (e : exn) :
  load data h = inl e -> is_MFAFRangeError e = false.
Proof.
  destruct (Z.lt_ge_cases (len data) 64) as [Hs|Hl].
  - rewrite load_short by exact Hs. intros H; inversion H; reflexivity.
  - rewrite load_unfold by lia.
    destruct (header_of data) as [[[[[[magic ts] co] mo] fc] ve] fl].
    destruct (negb _); [intros H; inversion H; reflexivity|].
    destruct (1 <? ve); [intros H; inversion H; reflexivity|].
    destruct (footer_of data) as [[fm me] ck].
    destruct (negb _); [intros H; inversion H; reflexivity|].
    destruct (negb _); [intros H; inversion H; reflexivity|].
    intros H. apply load_tail_error in H. by destruct e.
Qed.


(** ** Loading a file with the layout of [save] *)

Lemma archive_bytes_file (items : list item) :
  archive_bytes items =
  archive_file (archive_size items) HEADER_SIZE
    (HEADER_SIZE + len (contents_of items)) (len items) 1 0
    (contents_of items) (metadata_of items)
    (HEADER_SIZE + len (contents_of items) + len (metadata_of items))
    (crc32 (metadata_of items)).
Proof. reflexivity. Qed.

Lemma le_value_le_bytes_small (n : nat) (v : Z) :
  0 <= v < 2 ^ (8 * Z.of_nat n) -> le_value (le_bytes n v) = v.
Proof. intros. rewrite le_value_le_bytes. by apply Z.mod_small. Qed.

Section ArchiveFile.
Variables (ts co mo fc ve fl me ck : Z) (c md : bytes).
Hypothesis Hts : 0 <= ts < 2 ^ 64.
Hypothesis Hco : 0 <= co < 2 ^ 64.
Hypothesis Hmo : 0 <= mo < 2 ^ 64.
Hypothesis Hfc : 0 <= fc < 2 ^ 32.
Hypothesis Hve : 0 <= ve < 2 ^ 16.
Hypothesis Hfl : 0 <= fl < 2 ^ 16.
Hypothesis Hme : 0 <= me < 2 ^ 64.
Hypothesis Hck : 0 <= ck < 2 ^ 32.

Let data : bytes := archive_file ts co mo fc ve fl c md me ck.

Lemma length_archive_file :
  length data = (64 + length c + length md + 64)%nat.
Proof.
  unfold data, archive_file. rewrite !length_app, !length_le_bytes, !length_zeros.
  change (length HEADER_MAGIC) with 8%nat. change (length FOOTER_MAGIC) with 8%nat.
  lia.
Qed.

Lemma header_of_archive_file :
  header_of data = (HEADER_MAGIC, ts, co, mo, fc, ve, fl).
Proof.
  unfold header_of, data, archive_file.
  rewrite take_app_length' by (rewrite !length_app, !length_le_bytes, !length_zeros; reflexivity).
  rewrite unpack_header_app by (apply length_le_bytes || reflexivity).
  rewrite !le_value_le_bytes_small by assumption. reflexivity.
Qed.

Lemma footer_of_archive_file :
  footer_of data = (FOOTER_MAGIC, me, ck).
Proof.
  unfold footer_of. rewrite length_archive_file. unfold data, archive_file.
  rewrite !(app_assoc _ _ (FOOTER_MAGIC ++ _)).
  rewrite drop_app_length'.
  2:{ rewrite !length_app, !length_le_bytes, !length_zeros.
      change (length HEADER_MAGIC) with 8%nat. lia. }
  rewrite unpack_footer_app by (apply length_le_bytes || reflexivity).
  rewrite !le_value_le_bytes_small by assumption. reflexivity.
Qed.

Lemma slice_metadata :
  mo = 64 + len c -> slice data mo (len md) = md.
Proof.
  intros ->. unfold slice, data, archive_file.
  rewrite len_to_nat.
  replace (Z.to_nat (64 + len c)) with (64 + length c)%nat by (unfold len; lia).
  rewrite (app_assoc _ c).
  rewrite drop_app_length'.
  2:{ rewrite !length_app, !length_le_bytes, !length_zeros.
      change (length HEADER_MAGIC) with 8%nat. lia. }
  by rewrite take_app_length.
Qed.

Lemma load_archive_file (h : heap) :
  ve <= 1 -> mo = 64 + len c -> me = mo + len md -> ts = me + 64 ->
  ts < 2 ^ 63 ->
  load data h =
  if negb (crc32 md =? ck)
  then Raise (MFAFCRCError "Metadata checksum mismatch")
  else
  match unpackb md with
  | None => Raise (MFAFMsgPackError "Failed to parse metadata")
  | Some metadata_list =>
      let* items := iterate metadata_list in
      load_entries data items
        {| entries := []; version := ve; flags := fl; total_size := ts |} h
  end.
Proof.
  intros Hv Emo Eme Ets Hlim.
  pose proof (len_nonneg c). pose proof (len_nonneg md).
  rewrite load_unfold by (unfold len; rewrite length_archive_file; lia).
  rewrite header_of_archive_file, footer_of_archive_file.
  rewrite !bool_decide_eq_true_2 by reflexivity. cbn [negb].
  destruct (Z.ltb_spec 1 ve); [lia|].
  unfold sizes_consistent, FOOTER_SIZE.
  destruct (Z.eqb_spec (mo + (me - mo) + 64) ts); [|lia]. cbn [negb].
  unfold load_tail, f_seek.
  destruct (Z.ltb_spec mo 0); [lia|].
  destruct (Z.leb_spec 9223372036854775808 mo); [range_lia|].
  cbn [bind Ok]. unfold f_read.
  replace (me - mo) with (len md) by lia.
  destruct (Z.ltb_spec (len md) (-1)); [lia|].
  destruct (Z.leb_spec 9223372036854775808 (len md)); [range_lia|].
  destruct (Z.eqb_spec (len md) (-1)); [lia|].
  rewrite slice_metadata by exact Emo. cbn [bind Ok].
  rewrite crc32_masked. reflexivity.
Qed.
End ArchiveFile.


(** ** Reading the records back *)

Lemma from_dict_to_dict (e : MFAFEntry) :
  attributes e = (if truthy (attributes e) then attributes e else VDict []) ->
  from_dict (to_dict e) = Ok (set_content e []).
Proof.
  intros Hn. unfold to_dict. destruct e as [n c m a o s].
  cbn [name content mime_type attributes offset size] in *.
  destruct (truthy a) eqn:Ha.
  - cbn. unfold MFAFEntry_init, set_offset, set_size, set_content. cbn.
    rewrite Ha. reflexivity.
  - cbn. unfold MFAFEntry_init, set_offset, set_size, set_content. cbn.
    rewrite Hn. reflexivity.
Qed.

Lemma load_entries_to_dict (data : bytes) (es : list MFAFEntry)
    (mfaf : MFAFFile) (h : heap) :
  Forall placed es ->
  load_entries data (map to_dict es) mfaf h =
  Ok ({| entries := entries mfaf ++ seq (length h) (length es);
         version := version mfaf; flags := flags mfaf;
         total_size := total_size mfaf |},
      h ++ map (fun e => set_content e (content_at data e)) es).
Proof.
  intros Hes. revert mfaf h.
  induction Hes as [|e es [Hn (o & s & Ho & Hs & Hor & Hsr)] _ IH]; intros mfaf h.
  - cbn. rewrite !app_nil_r. by destruct mfaf.
  - cbn [map load_entries]. rewrite from_dict_to_dict by exact Hn.
    cbn [bind Ok]. cbn [offset size set_content].
    rewrite Ho, Hs. unfold seek_value, read_value. cbn [as_int].
    unfold f_seek, f_read.
    destruct (Z.ltb_spec o 0); [lia|].
    destruct (Z.leb_spec 9223372036854775808 o); [lia|].
    cbn [bind Ok].
    destruct (Z.ltb_spec s (-1)); [lia|].
    destruct (Z.leb_spec 9223372036854775808 s); [lia|].
    destruct (Z.eqb_spec s (-1)); [lia|].
    cbn [bind Ok alloc]. rewrite IH.
    cbn [add_entry entries version flags total_size length seq].
    rewrite length_app, <- !app_assoc. cbn [length app].
    rewrite Nat.add_1_r. do 3 f_equal.
    unfold content_at, set_content. cbn [offset size]. rewrite Ho, Hs.
    destruct e; reflexivity.
Qed.

Lemma slice_middle (pre c post : bytes) :
  slice (pre ++ c ++ post) (len pre) (len c) = c.
Proof.
  unfold slice. rewrite !len_to_nat, drop_app_length, take_app_length.
  reflexivity.
Qed.

(** In a file that holds the contents one after the other from [cur],
    every laid-out entry reads its own content back. *)
Lemma lay_out_content_at (es : list MFAFEntry) (pre post : bytes) :
  Forall sized es ->
  Forall (fun e => content_at (pre ++ concat (map content es) ++ post) e
                   = content e)
         (lay_out (len pre) es).
Proof.
  intros Hes. revert pre. induction Hes as [|e es He _ IH]; intros pre.
  - constructor.
  - cbn [lay_out map concat]. constructor.
    + unfold content_at. cbn [offset size set_offset content]. rewrite He.
      cbn [as_int]. rewrite <- app_assoc. apply slice_middle.
    + specialize (IH (pre ++ content e)).
      rewrite len_app, <- !app_assoc in IH. rewrite <- !app_assoc. exact IH.
Qed.

Lemma lay_out_placed (items : list item) (cur : Z) :
  0 <= cur ->
  cur + len (contents_of items) < 9223372036854775808 ->
  Forall placed (lay_out cur (map entry_of_item items)).
Proof.
  revert cur. induction items as [|it items IH]; intros cur Hcur Hlim.
  - constructor.
  - unfold contents_of in Hlim. cbn [map concat] in Hlim.
    rewrite len_app in Hlim. fold (contents_of items) in Hlim.
    pose proof (len_nonneg (item_content it)).
    pose proof (len_nonneg (contents_of items)).
    assert (Hc : content (entry_of_item it) = item_content it)
      by (by destruct it as [[[? ?] ?] ?]).
    cbn [map lay_out]. constructor.
    + split.
      * destruct it as [[[n c] m] [|p a]]; reflexivity.
      * exists cur, (len (item_content it)).
        repeat split; try lia. by destruct it as [[[? ?] ?] ?].
    + rewrite Hc. apply IH; lia.
Qed.

Lemma lay_out_views (cur : Z) (es : list MFAFEntry) :
  map view (lay_out cur es) = map view es.
Proof. revert cur. induction es; intros; cbn; [done | by rewrite IHes]. Qed.

Lemma entry_of_item_view (items : list item) :
  map view (map entry_of_item items) = map view_item items.
Proof.
  induction items as [|[[[n c] m] a] items IH]; [done|].
  cbn [map]. rewrite IH. f_equal. destruct a; reflexivity.
Qed.

(** ** Saving and loading a built archive *)

Lemma encodable_ranges (items : list item) :
  encodable items = true ->
  0 <= len (contents_of items) /\ 0 <= len (metadata_of items) /\
  len items < 4294967296 /\
  64 + len (contents_of items) + len (metadata_of items) + 64
    < 9223372036854775808.
Proof.
  intros H. apply encodable_inv in H as (_ & Hn & Hsz).
  unfold archive_size, HEADER_SIZE, FOOTER_SIZE in Hsz.
  pose proof (len_nonneg (contents_of items)).
  pose proof (len_nonneg (metadata_of items)). lia.
Qed.

Lemma encode_built (items : list item) :
  encodable items = true -> encode items = Ok (archive_bytes items).
Proof. intros H. unfold encode. by rewrite save_build. Qed.

(** Loading a file whose content region has the right length and whose
    metadata is that of [items]: the entries of [items], each with the
    bytes found at its offset. *)
Lemma load_built_layout (items : list item) (c : bytes) (h : heap) :
  encodable items = true ->
  len c = len (contents_of items) ->
  let data :=
    archive_file (archive_size items) HEADER_SIZE
      (HEADER_SIZE + len (contents_of items)) (len items) 1 0
      c (metadata_of items)
      (HEADER_SIZE + len (contents_of items) + len (metadata_of items))
      (crc32 (metadata_of items)) in
  load data h =
  Ok ({| entries := seq (length h) (length items); version := 1; flags := 0;
         total_size := archive_size items |},
      h ++ map (fun e => set_content e (content_at data e))
               (lay_out HEADER_SIZE (map entry_of_item items))).
Proof.
  intros Henc Hc data.
  pose proof (packb_metadata items Henc) as [_ Hun].
  pose proof (encodable_ranges items Henc) as (H1 & H2 & H3 & H4).
  pose proof (len_nonneg items).
  pose proof (crc32_u32 (metadata_of items)) as Hcrc. unfold u32 in Hcrc.
  unfold data, archive_size, HEADER_SIZE, FOOTER_SIZE in *.
  rewrite load_archive_file; try range_lia.
  rewrite Z.eqb_refl. cbn [negb]. rewrite Hun. cbn [iterate bind Ok].
  rewrite load_entries_to_dict by (apply lay_out_placed; lia).
  cbn [entries version flags total_size app].
  rewrite length_lay_out, length_map. reflexivity.
Qed.

Lemma load_archive_bytes (items : list item) (h : heap) :
  encodable items = true ->
  load (archive_bytes items) h =
  Ok ({| entries := seq (length h) (length items); version := 1; flags := 0;
         total_size := archive_size items |},
      h ++ lay_out HEADER_SIZE (map entry_of_item items)).
Proof.
  intros Henc. rewrite archive_bytes_file.
  rewrite load_built_layout by (exact Henc || reflexivity).
  do 3 f_equal.
  set (es := map entry_of_item items).
  pose proof (lay_out_content_at es
    (HEADER_MAGIC ++ le_bytes 8 (archive_size items) ++ le_bytes 8 HEADER_SIZE ++
     le_bytes 8 (HEADER_SIZE + len (contents_of items)) ++ le_bytes 4 (len items) ++
     le_bytes 2 1 ++ le_bytes 2 0 ++ zeros 24)
    (metadata_of items ++
     FOOTER_MAGIC ++
     le_bytes 8 (HEADER_SIZE + len (contents_of items) + len (metadata_of items)) ++
     le_bytes 4 (crc32 (metadata_of items)) ++ zeros 44)
    (entry_of_item_sized items)) as Hat.
  pose proof (entry_of_item_content items) as Hct. fold es in Hct.
  rewrite Hct in Hat. fold (contents_of items) in Hat.
  change (len (HEADER_MAGIC ++ _)) with HEADER_SIZE in Hat.
  unfold archive_file.
  induction Hat as [|e l He _ IH]; [reflexivity|].
  cbn [map]. rewrite He, IH. f_equal. by destruct e.
Qed.





(** C7. Empty archive: saving an archive with no entries and loading the
    result gives an archive with no entries, version 1, flags 0, and a
    total size of the header width plus the footer width plus the length
    of the packed empty list. *)
Theorem empty_archive (h h0 : heap) :
  exists out a,
    save MFAFFile_init h = (Ok out, (a, h)) /\
    exists b md,
      load out h0 = Ok (b, h0) /\
      entries b = [] /\ version b = 1 /\ flags b = 0 /\
      packb (VList []) = Ok md /\
      total_size b = HEADER_SIZE + FOOTER_SIZE + len md.
Proof.
  eexists _, _. split; [vm_compute; reflexivity|].
  eexists _, _. split; [vm_compute; reflexivity|].
  repeat split; vm_compute; reflexivity.
Qed.

(** C4. Unguarded content slicing: [load] never raises the bounds error,
    and there is a file that passes every check, declares an offset and
    size beyond its end, and loads with an entry whose content is shorter
    than its declared size. *)
Theorem unguarded_content_slicing :
  (forall data h,
     match load data h with
     | inl e => is_MFAFRangeError e = false
     | inr _ => True
     end) /\
  exists b h' r e o s,
    load stray_file [] = Ok (b, h') /\
    entries b = [r] /\ h' !! r = Some e /\
    offset e = VInt o /\ size e = VInt s /\
    len stray_file < o + s /\ len (content e) < s.
Proof.
  split.
  - intros data h. destruct (load data h) as [e|] eqn:E; [|exact I].
    by apply load_never_range_error in E.
  - eexists _, _, _, _, _, _.
    split; [vm_compute; reflexivity|].
    split; [reflexivity|]. split; [reflexivity|].
    split; [reflexivity|]. split; [reflexivity|].
    split; vm_compute; reflexivity.
Qed.

Lemma get_entry_none (self : MFAFFile) (h : heap) (wanted : string) :
  (forall r, r ∈ entries self -> name (h !!! r) <> VStr wanted) ->
  get_entry self h wanted = None.
Proof.
  intros Hno. unfold get_entry.
  destruct (List.find _ _) as [r|] eqn:E; [|reflexivity].
  apply find_some in E as [Hin Hname]. exfalso.
  apply (Hno r); [by apply list_elem_of_In|].
  unfold name_is in Hname. destruct (name (h !!! r)); try discriminate.
  apply String.eqb_eq in Hname. by subst.
Qed.

(** C9, as the code has it. For a name that matches no entry,
    [extract_entry] raises Python's [KeyError] with the message
    [Entry '<name>' not found]; [KeyError] is not one of the library's
    exception classes. *)
Theorem extract_missing_entry (self : MFAFFile) (h : heap) (wanted : string) :
  (forall r, r ∈ entries self -> name (h !!! r) <> VStr wanted) ->
  extract_entry self h wanted
  = Raise (Builtin (KeyError ("Entry '" +:+ wanted +:+ "' not found")))
  /\ is_MFAFError (Builtin (KeyError ("Entry '" +:+ wanted +:+ "' not found")))
     = false.
Proof.
  intros Hno. unfold extract_entry. rewrite get_entry_none by exact Hno.
  split; reflexivity.
Qed.

Lemma extract_missing_entry_witness :
  extract_entry (build sample_items).1 (build sample_items).2 "missing.txt"
  = Raise (Builtin (KeyError "Entry 'missing.txt' not found")).
Proof.
  apply (extract_missing_entry (build sample_items).1 (build sample_items).2
                               "missing.txt").
  intros r Hr. vm_compute in Hr.
  apply elem_of_cons in Hr as [->|Hr]; [vm_compute; discriminate|].
  apply elem_of_cons in Hr as [->|Hr]; [vm_compute; discriminate|].
  by apply elem_of_nil in Hr.
Defined.

(** C9 as stated fails: the exception raised for a missing name is not an
    instance of the library's base class. *)
Lemma extract_missing_entry_counterexample :
  get_entry MFAFFile_init [] "missing.txt" = None /\
  ~ (exists e, extract_entry MFAFFile_init [] "missing.txt" = Raise e /\
               is_MFAFError e = true).
Proof.
  split; [reflexivity|]. intros (e & He & Hm).
  vm_compute in He. inversion He; subst. discriminate Hm.
Qed.


(** ** The offsets that [save] leaves in the entries *)

Lemma same_but_offset_refl (e : MFAFEntry) : same_but_offset e e.
Proof. by repeat split. Qed.

Lemma same_but_offset_trans (e1 e2 e3 : MFAFEntry) :
  same_but_offset e1 e2 -> same_but_offset e2 e3 -> same_but_offset e1 e3.
Proof.
  unfold same_but_offset. intros (?&?&?&?&?) (?&?&?&?&?).
  repeat split; congruence.
Qed.

Lemma alter_set_offset (h : heap) (r r0 : nat) (o : value) :
  same_but_offset (alter (fun e => set_offset e o) r h !!! r0) (h !!! r0)
  /\ (r0 <> r -> alter (fun e => set_offset e o) r h !!! r0 = h !!! r0)
  /\ ((r < length h)%nat ->
      alter (fun e => set_offset e o) r h !!! r = set_offset (h !!! r) o).
Proof.
  split; [|split].
  - destruct (decide (r = r0)) as [<-|Hne].
    + destruct (decide (r < length h)%nat) as [Hlt|Hge].
      * rewrite list_lookup_total_alter_eq by exact Hlt. by repeat split.
      * rewrite !list_lookup_total_alt, list_lookup_alter_eq.
        rewrite (lookup_ge_None_2 h r) by lia. apply same_but_offset_refl.
    + rewrite list_lookup_total_alter_ne by exact Hne.
      apply same_but_offset_refl.
  - intros Hne. by rewrite list_lookup_total_alter_ne.
  - intros Hlt. by rewrite list_lookup_total_alter_eq.
Qed.

(** The loop writes offsets only, and only into the entries it visits. *)
Lemma set_offsets_frame (refs : list nat) (cur : Z) (h : heap) :
  forall r,
    same_but_offset ((set_offsets refs cur h).2 !!! r) (h !!! r) /\
    (r ∉ refs -> (set_offsets refs cur h).2 !!! r = h !!! r).
Proof.
  revert cur h. induction refs as [|r0 refs IH]; intros cur h r.
  - cbn. split; [apply same_but_offset_refl|done].
  - cbn [set_offsets].
    set (h1 := alter (fun entry => set_offset entry (VInt cur)) r0 h).
    pose proof (alter_set_offset h r0 r (VInt cur)) as (Hs & Hne & _).
    fold h1 in Hs, Hne.
    destruct (as_int (size (h1 !!! r0))) as [s|].
    + destruct (IH (cur + s) h1 r) as [IH1 IH2]. split.
      * eapply same_but_offset_trans; [exact IH1|exact Hs].
      * intros Hnot. apply not_elem_of_cons in Hnot as [Hr Hnot].
        rewrite IH2 by exact Hnot. by apply Hne.
    + cbn [snd]. split; [exact Hs|].
      intros Hnot. apply not_elem_of_cons in Hnot as [Hr Hnot]. by apply Hne.
Qed.

Lemma set_offsets_length (refs : list nat) (cur : Z) (h : heap) :
  length (set_offsets refs cur h).2 = length h.
Proof.
  revert cur h. induction refs as [|r0 refs IH]; intros cur h; [reflexivity|].
  cbn [set_offsets]. destruct (as_int _).
  - rewrite IH. apply length_alter.
  - apply length_alter.
Qed.

(** Over distinct entries the loop leaves each one where the one before
    ends. *)
Lemma set_offsets_chain (refs : list nat) (cur cur' : Z) (h h' : heap) :
  NoDup refs -> (forall r, r ∈ refs -> (r < length h)%nat) ->
  set_offsets refs cur h = (Ok cur', h') ->
  laid_out_from cur refs h'.
Proof.
  intros Hnd. revert cur h. induction Hnd as [|r0 refs Hnot Hnd IH];
    intros cur h Hval Hso; [exact I|].
  cbn [set_offsets] in Hso.
  set (h1 := alter (fun entry => set_offset entry (VInt cur)) r0 h) in *.
  pose proof (alter_set_offset h r0 r0 (VInt cur)) as (_ & _ & Heq).
  fold h1 in Heq. specialize (Heq (Hval r0 ltac:(left))).
  destruct (as_int (size (h1 !!! r0))) as [s|] eqn:Es; [|discriminate].
  pose proof (set_offsets_frame refs (cur + s) h1 r0) as [_ Hfr].
  rewrite Hso in Hfr. cbn [snd] in Hfr. specialize (Hfr Hnot).
  cbn [laid_out_from]. rewrite Hfr. split; [by rewrite Heq|].
  exists s. split; [exact Es|].
  apply (IH (cur + s) h1); [|exact Hso].
  intros r Hr. unfold h1. rewrite length_alter. apply Hval. by right.
Qed.

Lemma save_state (self : MFAFFile) (h : heap) (out : bytes)
    (a : MFAFFile) (h' : heap) :
  save self h = (Ok out, (a, h')) ->
  entries a = entries self /\
  exists cur', set_offsets (entries self) HEADER_SIZE h = (Ok cur', h').
Proof.
  unfold save.
  destruct (set_offsets (entries self) HEADER_SIZE h) as [[e|cur'] h1] eqn:Eso.
  { intros H; inversion H. }
  destruct (packb _) as [e|md].
  { intros H; inversion H. }
  intros H; inversion H; subst. split; [reflexivity|]. by exists cur'.
Qed.

(** C8, for entries that are distinct objects. After [save] has written
    an archive whose entries are pairwise distinct objects, the first
    entry's offset is the header width and every next entry's offset is
    the offset of the one before plus its size; [save] writes no other
    field of an entry, the size included. *)
Theorem save_lays_out_distinct_entries (self : MFAFFile) (h : heap)
    (out : bytes) (a : MFAFFile) (h' : heap) :
  save self h = (Ok out, (a, h')) ->
  NoDup (entries self) ->
  (forall r, r ∈ entries self -> (r < length h)%nat) ->
  entries a = entries self /\
  laid_out_from HEADER_SIZE (entries a) h' /\
  forall r, same_but_offset (h' !!! r) (h !!! r).
Proof.
  intros Hsave Hnd Hval.
  apply save_state in Hsave as (Hent & cur' & Hso).
  rewrite Hent. split; [reflexivity|]. split.
  - by apply (set_offsets_chain _ _ cur' h).
  - intros r. pose proof (set_offsets_frame (entries self) HEADER_SIZE h r) as [Hs _].
    by rewrite Hso in Hs.
Qed.

Lemma save_lays_out_distinct_entries_witness :
  exists out a h',
    save (build sample_items).1 (build sample_items).2 = (Ok out, (a, h')) /\
    laid_out_from HEADER_SIZE (entries a) h'.
Proof.
  eexists _, _, _. split; [vm_compute; reflexivity|].
  eapply (save_lays_out_distinct_entries
            (build sample_items).1 (build sample_items).2).
  - vm_compute. reflexivity.
  - apply (bool_decide_unpack _). vm_compute. exact I.
  - intros r Hr. vm_compute in Hr. vm_compute.
    apply elem_of_cons in Hr as [->|Hr]; [lia|].
    apply elem_of_cons in Hr as [->|Hr]; [lia|].
    by apply elem_of_nil in Hr.
Defined.

(** C8 as stated fails when one entry object is held twice: both places
    show the offset written last, so the first entry does not start at the
    header width. *)
Lemma shared_entry_counterexample :
  exists out a h',
    save shared_twice [shared_entry] = (Ok out, (a, h')) /\
    exists r, entries a !! 0%nat = Some r /\
              offset (h' !!! r) = VInt (HEADER_SIZE + 5) /\
              ~ laid_out_from HEADER_SIZE (entries a) h'.
Proof.
  eexists _, _, _. split; [vm_compute; reflexivity|].
  exists 0%nat. split; [reflexivity|]. split; [reflexivity|].
  intros [Hoff _]. vm_compute in Hoff. discriminate Hoff.
Qed.


(** ** The header checks *)

Lemma header_of_magic (data : bytes) : (header_of data).1.1.1.1.1.1 = take 8 data.
Proof.
  unfold header_of, unpack_header. cbn [fst]. rewrite take_take. reflexivity.
Qed.

Lemma load_bad_magic (data : bytes) (h : heap) :
  64 <= len data -> take 8 data <> HEADER_MAGIC ->
  load data h = Raise (MFAFMagicError "Invalid header magic number").
Proof.
  intros Hlen Hm. rewrite load_unfold by exact Hlen.
  pose proof (header_of_magic data) as Hh.
  destruct (header_of data) as [[[[[[magic ts] co] mo] fc] ve] fl].
  cbn [fst] in Hh. subst magic.
  by rewrite bool_decide_eq_false_2.
Qed.

Lemma save_output (self : MFAFFile) (h : heap) (out : bytes)
    (st : MFAFFile * heap) :
  save self h = (Ok out, st) ->
  exists hd rest, out = hd ++ rest /\ length hd = 64%nat.
Proof.
  unfold save.
  destruct (set_offsets _ _ _) as [[e|cur'] h1]; [intros H; inversion H|].
  destruct (packb _) as [e|md]; [intros H; inversion H|].
  unfold write_archive, bind.
  destruct (pack_header _ _ _ _ _ _ _) as [e|hd] eqn:Eh; [intros H; inversion H|].
  destruct (pack_footer _ _ _) as [e|ft]; [intros H; inversion H|].
  intros H; inversion H; subst. eexists _, _. split; [reflexivity|].
  apply pack_header_ok in Eh as [-> _].
  rewrite !length_app, length_pack_8s, !length_le_bytes, length_zeros.
  reflexivity.
Qed.

(** C5. Magic gate: in every file written by [save], replacing the first 8
    bytes by 8 other bytes makes [load] fail with the magic error for the
    header; and it fails so whatever follows those 8 bytes, so no other
    header field has a part in it. *)
Theorem magic_gate (self : MFAFFile) (h h0 : heap) (out : bytes)
    (st : MFAFFile * heap) (m : bytes) :
  save self h = (Ok out, st) ->
  length m = 8%nat -> m <> HEADER_MAGIC ->
  load (m ++ drop 8 out) h0
    = Raise (MFAFMagicError "Invalid header magic number") /\
  forall rest, 56 <= len rest ->
    load (m ++ rest) h0 = Raise (MFAFMagicError "Invalid header magic number").
Proof.
  intros Hsave Hm Hne.
  assert (Hall : forall rest, 56 <= len rest ->
            load (m ++ rest) h0 = Raise (MFAFMagicError "Invalid header magic number")).
  { intros rest Hrest. apply load_bad_magic.
    - rewrite len_app. unfold len in *. lia.
    - by rewrite take_app_length'. }
  split; [|exact Hall].
  apply Hall. apply save_output in Hsave as (hd & rest & -> & Hhd).
  unfold len. rewrite length_drop, length_app. lia.
Qed.

Lemma magic_gate_witness :
  load (zeros 8 ++ drop 8 (archive_bytes sample_items)) []
  = Raise (MFAFMagicError "Invalid header magic number").
Proof.
  refine (proj1 (magic_gate (build sample_items).1 (build sample_items).2 []
                   (archive_bytes sample_items)
                   (save (build sample_items).1 (build sample_items).2).2
                   (zeros 8) _ _ _)).
  - vm_compute. reflexivity.
  - reflexivity.
  - discriminate.
Defined.

(** C6. Version gate: a file of at least 64 bytes whose header has the
    header magic and declares a version above 1 makes [load] fail with the
    version error, whatever the rest of the file holds. *)
Theorem version_gate (data : bytes) (h : heap)
    (total_size content_offset metadata_offset file_count version flags : Z) :
  64 <= len data ->
  header_of data = (HEADER_MAGIC, total_size, content_offset,
                    metadata_offset, file_count, version, flags) ->
  1 < version ->
  load data h
  = Raise (MFAFVersionError ("Unsupported version: " +:+ pretty version)).
Proof.
  intros Hlen Hh Hv. rewrite load_unfold by exact Hlen. rewrite Hh.
  rewrite bool_decide_eq_true_2 by reflexivity. cbn [negb].
  destruct (Z.ltb_spec 1 version); [reflexivity|lia].
Qed.

Lemma version_gate_witness :
  load version_2_file [] = Raise (MFAFVersionError "Unsupported version: 2").
Proof.
  apply (version_gate version_2_file [] 129 64 64 0 2 0).
  - vm_compute. discriminate.
  - vm_compute. reflexivity.
  - reflexivity.
Defined.


(** ** The size check *)

Lemma sizes_consistent_eq (ts mo me : Z) :
  sizes_consistent ts mo me = (me + FOOTER_SIZE =? ts).
Proof. unfold sizes_consistent. f_equal. lia. Qed.

Lemma split_header (data : bytes) :
  (40 <= length data)%nat ->
  exists a1 a2 a3 b c1 c2 c3 z,
    data = a1 ++ a2 ++ a3 ++ b ++ c1 ++ c2 ++ c3 ++ z /\
    length a1 = 8%nat /\ length a2 = 8%nat /\ length a3 = 8%nat /\
    length b = 8%nat /\ length c1 = 4%nat /\ length c2 = 2%nat /\
    length c3 = 2%nat.
Proof.
  intros Hlen.
  exists (take 8 data), (take 8 (drop 8 data)), (take 8 (drop 16 data)),
         (take 8 (drop 24 data)), (take 4 (drop 32 data)),
         (take 2 (drop 36 data)), (take 2 (drop 38 data)), (drop 40 data).
  split.
  - rewrite <- (take_drop 8 data) at 1. f_equal.
    rewrite <- (take_drop 8 (drop 8 data)) at 1. f_equal. rewrite drop_drop.
    rewrite <- (take_drop 8 (drop (8 + 8) data)) at 1. f_equal. rewrite drop_drop.
    rewrite <- (take_drop 8 (drop (8 + 8 + 8) data)) at 1. f_equal. rewrite drop_drop.
    rewrite <- (take_drop 4 (drop (8 + 8 + 8 + 8) data)) at 1. f_equal. rewrite drop_drop.
    rewrite <- (take_drop 2 (drop (8 + 8 + 8 + 8 + 4) data)) at 1. f_equal. rewrite drop_drop.
    rewrite <- (take_drop 2 (drop (8 + 8 + 8 + 8 + 4 + 2) data)) at 1. f_equal.
    rewrite drop_drop. reflexivity.
  - rewrite !length_take, !length_drop. lia.
Qed.

Lemma header_of_pieces (a1 a2 a3 b c1 c2 c3 z : bytes) :
  length a1 = 8%nat -> length a2 = 8%nat -> length a3 = 8%nat ->
  length b = 8%nat -> length c1 = 4%nat -> length c2 = 2%nat ->
  length c3 = 2%nat ->
  header_of (a1 ++ a2 ++ a3 ++ b ++ c1 ++ c2 ++ c3 ++ z)
  = (a1, le_value a2, le_value a3, le_value b, le_value c1, le_value c2,
     le_value c3).
Proof.
  intros H1 H2 H3 H4 H5 H6 H7. unfold header_of.
  replace (take 64 (a1 ++ a2 ++ a3 ++ b ++ c1 ++ c2 ++ c3 ++ z))
    with (a1 ++ a2 ++ a3 ++ b ++ c1 ++ c2 ++ c3 ++ take 24 z).
  - by apply unpack_header_app.
  - rewrite !take_app.
    rewrite (take_ge a1), (take_ge a2), (take_ge a3), (take_ge b),
            (take_ge c1), (take_ge c2), (take_ge c3) by lia.
    repeat f_equal. lia.
Qed.

Lemma footer_of_app (pre rest : bytes) :
  (64 <= length rest)%nat ->
  footer_of (pre ++ rest) = unpack_footer (drop (length rest - 64) rest).
Proof.
  intros H. unfold footer_of.
  rewrite drop_app_skip by (rewrite length_app; lia).
  do 2 f_equal. rewrite length_app. lia.
Qed.

Lemma patch_fields (data x : bytes) :
  96 <= len data -> length x = 8%nat ->
  exists magic ts co mo fc ve fl,
    header_of data = (magic, ts, co, mo, fc, ve, fl) /\
    header_of (patch_metadata_offset data x)
      = (magic, ts, co, le_value x, fc, ve, fl) /\
    footer_of (patch_metadata_offset data x) = footer_of data /\
    len (patch_metadata_offset data x) = len data.
Proof.
  intros Hlen Hx. unfold len in Hlen.
  destruct (split_header data ltac:(lia))
    as (a1 & a2 & a3 & b & c1 & c2 & c3 & z & -> & H1 & H2 & H3 & H4 & H5 & H6 & H7).
  rewrite !length_app in Hlen.
  assert (Hp : patch_metadata_offset
                 (a1 ++ a2 ++ a3 ++ b ++ c1 ++ c2 ++ c3 ++ z) x
               = a1 ++ a2 ++ a3 ++ x ++ c1 ++ c2 ++ c3 ++ z).
  { unfold patch_metadata_offset.
    rewrite !(app_assoc a1), !(app_assoc (a1 ++ a2)).
    rewrite take_app_length' by (rewrite !length_app; lia).
    rewrite (app_assoc _ b).
    rewrite drop_app_length' by (rewrite !length_app; lia).
    rewrite <- !app_assoc. reflexivity. }
  rewrite Hp.
  eexists _, _, _, _, _, _, _.
  split; [by apply header_of_pieces|].
  split; [by apply header_of_pieces|].
  split.
  - rewrite !(app_assoc a1), !(app_assoc (a1 ++ a2)).
    rewrite (app_assoc _ b), (app_assoc _ x).
    rewrite !footer_of_app by (rewrite !length_app; lia). reflexivity.
  - unfold len. rewrite !length_app. lia.
Qed.

Lemma load_tail_consistent (data : bytes) (ts mo me ck ve fl : Z) (h : heap) :
  load_tail data ts mo me ck ve fl h <> Raise INCONSISTENT.
Proof. intros H. apply load_tail_error in H. discriminate H. Qed.

(** In a file of at least 96 bytes the footer lies behind the header's
    [metadata_offset] field: overwriting the 8 bytes of that field never
    changes whether [load] ends with the error of the size check. *)
Lemma patched_metadata_offset (data x : bytes) (h : heap) :
  96 <= len data -> length x = 8%nat ->
  (load (patch_metadata_offset data x) h = Raise INCONSISTENT <->
   load data h = Raise INCONSISTENT).
Proof.
  intros Hlen Hx.
  destruct (patch_fields data x Hlen Hx)
    as (magic & t & co & o & fc & ve & fl & Hh & Hh' & Hf & Hl).
  rewrite (load_unfold data) by lia.
  rewrite (load_unfold (patch_metadata_offset data x)) by lia.
  rewrite Hh, Hh', Hf.
  destruct (negb (bool_decide (magic = HEADER_MAGIC))); [done|].
  destruct (1 <? ve); [done|].
  destruct (footer_of data) as [[fm e] ck].
  destruct (negb (bool_decide (fm = FOOTER_MAGIC))); [done|].
  rewrite (sizes_consistent_eq t (le_value x)), (sizes_consistent_eq t o).
  destruct (negb (e + FOOTER_SIZE =? t)); [done|].
  split; intros H; exfalso; by apply load_tail_consistent in H.
Qed.

(** [load] on an input that reaches the size check. *)
Lemma load_at_size_gate (data : bytes) (h : heap)
    (ts co mo fc ve fl me ck : Z) :
  64 <= len data ->
  header_of data = (HEADER_MAGIC, ts, co, mo, fc, ve, fl) -> ve <= 1 ->
  footer_of data = (FOOTER_MAGIC, me, ck) ->
  load data h =
  if negb (sizes_consistent ts mo me) then Raise INCONSISTENT
  else load_tail data ts mo me ck ve fl h.
Proof.
  intros Hlen Hh Hv Hf. rewrite load_unfold by exact Hlen.
  rewrite Hh, Hf. rewrite !bool_decide_eq_true_2 by reflexivity. cbn [negb].
  by destruct (Z.ltb_spec 1 ve); [lia|].
Qed.

Lemma load_size_verdict (data : bytes) (h : heap)
    (ts co mo fc ve fl me ck : Z) :
  64 <= len data ->
  header_of data = (HEADER_MAGIC, ts, co, mo, fc, ve, fl) -> ve <= 1 ->
  footer_of data = (FOOTER_MAGIC, me, ck) ->
  (load data h = Raise INCONSISTENT <-> me + FOOTER_SIZE <> ts).
Proof.
  intros Hlen Hh Hv Hf.
  rewrite (load_at_size_gate data h ts co mo fc ve fl me ck) by assumption.
  rewrite sizes_consistent_eq.
  destruct (Z.eqb_spec (me + FOOTER_SIZE) ts) as [E|E]; cbn [negb].
  - split; [|done]. intros H. by apply load_tail_consistent in H.
  - done.
Qed.

(** C10. The size check of [load] is the equation
    [metadata_end + FOOTER_SIZE = total_size]: an input that reaches it (a
    file of at least 64 bytes with the header magic, a version of at most
    1 and the footer magic) ends [load] with the error of this check
    exactly when the footer's [metadata_end] plus 64 differs from the
    header's [total_size]. The header's [metadata_offset] has no part in
    it: two inputs that reach the check with the same [total_size] and
    [metadata_end] get the same verdict whatever their metadata offsets
    are, so an input that passes still passes with any other metadata
    offset. *)
Theorem size_gate_ignores_metadata_offset (data data' : bytes) (h h' : heap)
    (ts me co mo fc ve fl ck co' mo' fc' ve' fl' ck' : Z) :
  64 <= len data ->
  header_of data = (HEADER_MAGIC, ts, co, mo, fc, ve, fl) -> ve <= 1 ->
  footer_of data = (FOOTER_MAGIC, me, ck) ->
  64 <= len data' ->
  header_of data' = (HEADER_MAGIC, ts, co', mo', fc', ve', fl') -> ve' <= 1 ->
  footer_of data' = (FOOTER_MAGIC, me, ck') ->
  sizes_consistent ts mo me = (me + FOOTER_SIZE =? ts) /\
  (load data h = Raise INCONSISTENT <-> me + FOOTER_SIZE <> ts) /\
  (load data' h' = Raise INCONSISTENT <-> load data h = Raise INCONSISTENT).
Proof.
  intros Hlen Hh Hv Hf Hlen' Hh' Hv' Hf'.
  split; [apply sizes_consistent_eq|].
  pose proof (load_size_verdict data h ts co mo fc ve fl me ck
                Hlen Hh Hv Hf) as H1.
  pose proof (load_size_verdict data' h' ts co' mo' fc' ve' fl' me ck'
                Hlen' Hh' Hv' Hf') as H2.
  split; [exact H1|]. by rewrite H1, H2.
Qed.

Lemma size_gate_ignores_metadata_offset_witness :
  sizes_consistent 999 64 65 = (65 + FOOTER_SIZE =? 999) /\
  (load wrong_size_file [] = Raise INCONSISTENT <-> 65 + FOOTER_SIZE <> 999) /\
  (load (patch_metadata_offset wrong_size_file (zeros 8)) [shared_entry]
     = Raise INCONSISTENT <->
   load wrong_size_file [] = Raise INCONSISTENT).
Proof.
  apply (size_gate_ignores_metadata_offset
           wrong_size_file (patch_metadata_offset wrong_size_file (zeros 8))
           [] [shared_entry] 999 65 64 64 0 1 0 (crc32 (pack (VList [])))
           64 0 0 1 0 (crc32 (pack (VList [])))).
  - vm_compute. discriminate.
  - vm_compute. reflexivity.
  - lia.
  - vm_compute. reflexivity.
  - vm_compute. discriminate.
  - vm_compute. reflexivity.
  - lia.
  - vm_compute. reflexivity.
Defined.


(** ** Truncated files *)

Lemma footer_of_magic (data : bytes) :
  (footer_of data).1.1 = take 8 (drop (length data - 64) data).
Proof. reflexivity. Qed.

Lemma load_bad_footer_magic (data : bytes) (h : heap)
    (ts co mo fc ve fl : Z) :
  64 <= len data ->
  header_of data = (HEADER_MAGIC, ts, co, mo, fc, ve, fl) -> ve <= 1 ->
  take 8 (drop (length data - 64) data) <> FOOTER_MAGIC ->
  load data h = Raise (MFAFMagicError "Invalid footer magic number").
Proof.
  intros Hlen Hh Hv Hm. rewrite load_unfold by exact Hlen. rewrite Hh.
  rewrite bool_decide_eq_true_2 by reflexivity. cbn [negb].
  destruct (Z.ltb_spec 1 ve); [lia|].
  pose proof (footer_of_magic data) as Hf.
  destruct (footer_of data) as [[fm me] ck]. cbn [fst] in Hf. subst fm.
  by rewrite bool_decide_eq_false_2.
Qed.

Lemma take_drop_take (l : bytes) (k n : nat) :
  (k + 8 <= n)%nat -> take 8 (drop k (take n l)) = take 8 (drop k l).
Proof.
  intros H. replace n with (k + (n - k))%nat by lia.
  rewrite <- take_drop_commute, take_take. f_equal. lia.
Qed.

(** C2, as the code has it. [load] does not compare the length of the
    file with the declared total size. A file written by [save] for a
    built archive and cut to fewer bytes fails with the size error when
    fewer than 64 bytes are left; otherwise [load] takes the last 64 bytes
    left as the footer and fails with the magic error, unless the 8 bytes
    64 before the cut are the footer magic. *)
Theorem truncated_archive (items : list item) (out : bytes) (n : nat)
    (h : heap) :
  encodable items = true -> encode items = Ok out ->
  (n < length out)%nat ->
  ((n < 64)%nat ->
   load (take n out) h
   = Raise (MFAFSizeError "File too small to contain a valid header")) /\
  ((64 <= n)%nat -> take 8 (drop (n - 64) out) <> FOOTER_MAGIC ->
   load (take n out) h
   = Raise (MFAFMagicError "Invalid footer magic number")).
Proof.
  intros Henc Hout Hn.
  rewrite encode_built in Hout by exact Henc. inversion Hout; subst out. clear Hout.
  assert (Hlt : length (take n (archive_bytes items)) = n)
    by (rewrite length_take; lia).
  split.
  - intros Hs. apply load_short. unfold len. lia.
  - intros Hl Hm.
    pose proof (encodable_ranges items Henc) as (H1 & H2 & H3 & H4).
    pose proof (len_nonneg items).
    pose proof (crc32_u32 (metadata_of items)) as Hcrc. unfold u32 in Hcrc.
    eapply (load_bad_footer_magic _ _ _ _ _ _ 1).
    + unfold len. lia.
    + unfold header_of. rewrite take_take.
      replace (64 `min` n)%nat with 64%nat by lia.
      rewrite archive_bytes_file.
      apply header_of_archive_file;
        unfold archive_size, HEADER_SIZE, FOOTER_SIZE in *; range_lia.
    + lia.
    + rewrite Hlt, take_drop_take by lia. exact Hm.
Qed.

Lemma truncated_archive_witness :
  load (take 100 (archive_bytes sample_items)) []
  = Raise (MFAFMagicError "Invalid footer magic number").
Proof.
  refine (proj2 (truncated_archive sample_items (archive_bytes sample_items)
                   100 [] _ _ _) _ _).
  - vm_compute. reflexivity.
  - vm_compute. reflexivity.
  - vm_compute. lia.
  - lia.
  - vm_compute. discriminate.
Defined.

(** C2 as stated fails: the empty archive cut from 129 to 128 bytes makes
    [load] fail with the magic error, which is neither the size error nor
    the bounds error. *)
Lemma truncated_archive_counterexample :
  encode [] = Ok empty_archive_bytes /\
  len empty_archive_bytes = 129 /\
  load (take 128 empty_archive_bytes) []
  = Raise (MFAFMagicError "Invalid footer magic number").
Proof. repeat split; vm_compute; reflexivity. Qed.

(** A cut file can also load without any error: the content of
    [mimic_items] passes for a footer once the file is cut to 128 of its
    163 bytes. *)
Lemma truncated_archive_loads :
  exists out b h',
    encode mimic_items = Ok out /\ len out = 163 /\
    load (take 128 out) [] = Ok (b, h') /\
    views b h' = map view_item mimic_items.
Proof.
  eexists _, _, _. split; [vm_compute; reflexivity|].
  split; [vm_compute; reflexivity|].
  split; vm_compute; reflexivity.
Qed.


(** ** Flipping one bit *)

Lemma flip_byte_neq (b : byte) (k : Z) :
  0 <= k < 8 -> z2b (Z.lxor (b2z b) (2 ^ k)) <> b.
Proof.
  intros Hk Heq. apply (f_equal b2z) in Heq.
  pose proof (b2z_range b) as Hb.
  assert (H2 : 0 <= 2 ^ k < 2 ^ 8).
  { split; [apply Z.pow_nonneg; lia|]. apply Z.pow_lt_mono_r; lia. }
  pose proof (lxor_bound 8 (b2z b) (2 ^ k) ltac:(lia) ltac:(range_lia) H2) as Hx.
  change (2 ^ 8) with 256 in Hx.
  rewrite b2z_z2b_small in Heq by exact Hx.
  rewrite <- (Z.lxor_0_r (b2z b)) in Heq at 2.
  apply lxor_cancel_l in Heq.
  pose proof (Z.pow_pos_nonneg 2 k ltac:(lia) ltac:(lia)). lia.
Qed.

Lemma flip_bit_length (data : bytes) (i : nat) (k : Z) :
  length (flip_bit data i k) = length data.
Proof. apply length_alter. Qed.

(** A flip inside the middle part of a concatenation stays there. *)
Lemma flip_bit_middle (pre mid post : bytes) (i : nat) (k : Z) :
  (length pre <= i < length pre + length mid)%nat ->
  flip_bit (pre ++ mid ++ post) i k
  = pre ++ flip_bit mid (i - length pre) k ++ post.
Proof.
  intros Hi. unfold flip_bit.
  rewrite alter_app_r_alt by lia. f_equal.
  rewrite alter_app_l by lia. reflexivity.
Qed.

(** A flip changes exactly one byte. *)
Lemma flip_bit_split (data : bytes) (i : nat) (k : Z) :
  (i < length data)%nat ->
  exists p b s, data = p ++ b :: s /\
                flip_bit data i k = p ++ z2b (Z.lxor (b2z b) (2 ^ k)) :: s.
Proof.
  intros Hi. destruct (lookup_lt_is_Some_2 data i Hi) as [b Hb].
  exists (take i data), b, (drop (S i) data). split.
  - symmetry. by apply take_drop_middle.
  - unfold flip_bit.
    rewrite <- (take_drop_middle data i b Hb) at 1.
    rewrite alter_app_r_alt by (rewrite length_take; lia).
    rewrite length_take. replace (i - i `min` length data)%nat with 0%nat by lia.
    reflexivity.
Qed.

Lemma crc32_flip_bit (md : bytes) (i : nat) (k : Z) :
  (i < length md)%nat -> 0 <= k < 8 ->
  crc32 (flip_bit md i k) <> crc32 md.
Proof.
  intros Hi Hk. destruct (flip_bit_split md i k Hi) as (p & b & s & -> & ->).
  intros H. apply crc32_one_byte in H. by apply flip_byte_neq in H.
Qed.

(** C3. Checksum sensitivity: in the file [save] writes for a built
    archive, whose header and footer declare where the metadata blob
    begins and ends, inverting one bit inside the metadata blob makes
    [load] fail with the checksum error, and inverting one bit inside the
    content region does not: [load] returns an archive. *)
Theorem checksum_sensitivity (items : list item) (out : bytes) (i : nat)
    (k : Z) (h : heap) :
  encodable items = true -> encode items = Ok out -> 0 <= k < 8 ->
  let metadata_offset := HEADER_SIZE + len (contents_of items) in
  let metadata_end := metadata_offset + len (metadata_of items) in
  header_of out = (HEADER_MAGIC, archive_size items, HEADER_SIZE,
                   metadata_offset, len items, 1, 0) /\
  footer_of out = (FOOTER_MAGIC, metadata_end, crc32 (metadata_of items)) /\
  (metadata_offset <= Z.of_nat i < metadata_end ->
   load (flip_bit out i k) h
   = Raise (MFAFCRCError "Metadata checksum mismatch")) /\
  (HEADER_SIZE <= Z.of_nat i < metadata_offset ->
   exists b h', load (flip_bit out i k) h = Ok (b, h')).
Proof.
  intros Henc Hout Hk mo me.
  rewrite encode_built in Hout by exact Henc. inversion Hout; subst out. clear Hout.
  pose proof (encodable_ranges items Henc) as (H1 & H2 & H3 & H4).
  pose proof (len_nonneg items).
  pose proof (crc32_u32 (metadata_of items)) as Hcrc. unfold u32 in Hcrc.
  rewrite archive_bytes_file.
  unfold mo, me, archive_size, HEADER_SIZE, FOOTER_SIZE in *.
  split; [apply header_of_archive_file; range_lia|].
  split; [apply footer_of_archive_file; range_lia|].
  split.
  - intros Hi. unfold archive_file.
    set (hd := HEADER_MAGIC ++ _). set (ft := FOOTER_MAGIC ++ _).
    assert (Hhd : length hd = 64%nat) by reflexivity.
    rewrite (app_assoc hd).
    rewrite flip_bit_middle by (rewrite length_app; unfold len in *; lia).
    rewrite <- app_assoc.
    set (md' := flip_bit (metadata_of items) _ k).
    assert (Hlen : len md' = len (metadata_of items))
      by (unfold len, md'; by rewrite flip_bit_length).
    change (hd ++ contents_of items ++ md' ++ ft)
      with (archive_file (64 + len (contents_of items) + len (metadata_of items) + 64)
              64 (64 + len (contents_of items)) (len items) 1 0
              (contents_of items) md'
              (64 + len (contents_of items) + len (metadata_of items))
              (crc32 (metadata_of items))).
    rewrite load_archive_file; try range_lia.
    destruct (Z.eqb_spec (crc32 md') (crc32 (metadata_of items))) as [E|_];
      [|reflexivity].
    exfalso. revert E. apply crc32_flip_bit; [|exact Hk].
    rewrite length_app. unfold len in *. lia.
  - intros Hi. unfold archive_file.
    set (hd := HEADER_MAGIC ++ _). set (ft := FOOTER_MAGIC ++ _).
    assert (Hhd : length hd = 64%nat) by reflexivity.
    rewrite flip_bit_middle by (unfold len in *; lia).
    set (c' := flip_bit (contents_of items) _ k).
    assert (Hlen : len c' = len (contents_of items))
      by (unfold len, c'; by rewrite flip_bit_length).
    pose proof (load_built_layout items c' h Henc Hlen) as Hl.
    cbv zeta in Hl. unfold archive_file, archive_size, HEADER_SIZE, FOOTER_SIZE in Hl.
    fold hd ft in Hl. eexists _, _. exact Hl.
Qed.

Lemma checksum_sensitivity_witness :
  load (flip_bit (archive_bytes sample_items) 70 3) []
  = Raise (MFAFCRCError "Metadata checksum mismatch") /\
  exists b h', load (flip_bit (archive_bytes sample_items) 64 0) [] = Ok (b, h').
Proof.
  split.
  - refine (proj1 (proj2 (proj2 (checksum_sensitivity sample_items
              (archive_bytes sample_items) 70 3 [] _ _ _))) _).
    + vm_compute. reflexivity.
    + vm_compute. reflexivity.
    + lia.
    + vm_compute. split; [discriminate|reflexivity].
  - refine (proj2 (proj2 (proj2 (checksum_sensitivity sample_items
              (archive_bytes sample_items) 64 0 [] _ _ _))) _).
    + vm_compute. reflexivity.
    + vm_compute. reflexivity.
    + lia.
    + vm_compute. split; [discriminate|reflexivity].
Defined.


(* ===================================================================== *)
(** * Further properties *)
(* ===================================================================== *)

(** ** Lookup by name *)

Lemma name_is_true (wanted : string) (e : MFAFEntry) :
  name_is wanted e = true <-> name e = VStr wanted.
Proof.
  unfold name_is. destruct (name e); try (split; [discriminate|intros H; inversion H]).
  rewrite String.eqb_eq. split; [by intros ->|by intros [= ->]].
Qed.

Lemma find_first_match {A} (f : A -> bool) (l : list A) (x : A) :
  List.find f l = Some x <->
  exists pre post, l = pre ++ x :: post /\ f x = true /\
                   forall y, y ∈ pre -> f y = false.
Proof.
  induction l as [|a l IH].
  - split; [discriminate|]. intros (pre & post & H & _). by destruct pre.
  - cbn [List.find]. destruct (f a) eqn:Ea.
    + split.
      * intros [= ->]. exists [], l. split; [reflexivity|]. split; [exact Ea|].
        intros y Hy. by apply elem_of_nil in Hy.
      * intros (pre & post & H & Hx & Hpre). destruct pre as [|p pre].
        -- by inversion H.
        -- inversion H; subst. rewrite (Hpre p) in Ea by left. discriminate.
    + rewrite IH. split.
      * intros (pre & post & -> & Hx & Hpre). exists (a :: pre), post.
        split; [reflexivity|]. split; [exact Hx|].
        intros y Hy. apply elem_of_cons in Hy as [->|Hy]; [exact Ea|by apply Hpre].
      * intros (pre & post & H & Hx & Hpre). destruct pre as [|p pre].
        -- inversion H; subst. congruence.
        -- inversion H; subst. exists pre, post. split; [reflexivity|].
           split; [exact Hx|]. intros y Hy. apply Hpre. by right.
Qed.

(** X1. [get_entry] returns the first entry of that name: it returns [r]
    exactly when [r] is held at some place of the archive, has the name,
    and no entry held before that place has it. *)
Theorem get_entry_first_match (self : MFAFFile) (h : heap) (wanted : string)
    (r : nat) :
  get_entry self h wanted = Some r <->
  exists pre post,
    entries self = pre ++ r :: post /\
    name (h !!! r) = VStr wanted /\
    forall r', r' ∈ pre -> name (h !!! r') <> VStr wanted.
Proof.
  unfold get_entry. rewrite find_first_match. split.
  - intros (pre & post & He & Hn & Hpre). exists pre, post.
    split; [exact He|]. split; [by apply name_is_true|].
    intros r' Hr' Hname. apply name_is_true in Hname.
    rewrite (Hpre r' Hr') in Hname. discriminate.
  - intros (pre & post & He & Hn & Hpre). exists pre, post.
    split; [exact He|]. split; [by apply name_is_true|].
    intros r' Hr'. destruct (name_is wanted (h !!! r')) eqn:E; [|reflexivity].
    apply name_is_true in E. by apply Hpre in E.
Qed.

Lemma find_snoc {A} (f : A -> bool) (l : list A) (x : A) :
  List.find f (l ++ [x]) =
  match List.find f l with
  | Some y => Some y
  | None => if f x then Some x else None
  end.
Proof.
  induction l as [|a l IH]; cbn [app List.find]; [reflexivity|].
  destruct (f a); [reflexivity|exact IH].
Qed.

(** X2. Lookup after [add_entry]: an entry that was found before is still
    the one found (the first holder of a name keeps it); otherwise the
    added entry is found exactly when it has the name. *)
Theorem get_entry_add_entry (self : MFAFFile) (h : heap) (entry : nat)
    (wanted : string) :
  get_entry (add_entry self entry) h wanted =
  match get_entry self h wanted with
  | Some r => Some r
  | None => if name_is wanted (h !!! entry) then Some entry else None
  end.
Proof.
  unfold get_entry, add_entry. cbn [entries].
  apply (find_snoc (fun r => name_is wanted (h !!! r))).
Qed.


(** ** Saving and loading with any version and flags *)

Lemma set_offset_set_offset (e : MFAFEntry) (o o' : value) :
  set_offset (set_offset e o) o' = set_offset e o'.
Proof. reflexivity. Qed.

Lemma lay_out_idem (c c' : Z) (es : heap) :
  lay_out c (lay_out c' es) = lay_out c es.
Proof.
  revert c c'. induction es as [|e es IH]; intros c c'; [reflexivity|].
  cbn [lay_out content set_offset]. rewrite IH. reflexivity.
Qed.

Lemma lay_out_sized (c : Z) (es : heap) :
  Forall sized es -> Forall sized (lay_out c es).
Proof.
  intros H. revert c. induction H as [|e es He _ IH]; intros c; constructor.
  - exact He.
  - apply IH.
Qed.

Lemma map_deref_pre {B} (f : MFAFEntry -> B) (pre es : heap) (n : nat) :
  n = length es ->
  map (fun r => f ((pre ++ es) !!! r)) (seq (length pre) n) = map f es.
Proof.
  intros ->. pose proof (map_deref_seq f pre es []) as H.
  by rewrite app_nil_r in H.
Qed.

(** [save] on an archive that holds, as new objects behind [pre], entries
    with the fields of [items]: the bytes written, for any version and
    flags of 16 bits. *)
Lemma save_general (items : list item) (pre es : heap) (ve fl t0 : Z) :
  encodable items = true ->
  lay_out HEADER_SIZE es = lay_out HEADER_SIZE (map entry_of_item items) ->
  Forall sized es ->
  0 <= ve < 65536 -> 0 <= fl < 65536 ->
  save {| entries := seq (length pre) (length es); version := ve;
          flags := fl; total_size := t0 |} (pre ++ es) =
  (Ok (archive_file (archive_size items) HEADER_SIZE
         (HEADER_SIZE + len (contents_of items)) (len items) ve fl
         (contents_of items) (metadata_of items)
         (HEADER_SIZE + len (contents_of items) + len (metadata_of items))
         (crc32 (metadata_of items))),
   ({| entries := seq (length pre) (length es); version := ve; flags := fl;
       total_size := archive_size items |},
    pre ++ lay_out HEADER_SIZE (map entry_of_item items))).
Proof.
  intros Henc Heq Hsized Hve Hfl.
  pose proof (packb_metadata items Henc) as [Hpk _].
  apply encodable_inv in Henc as (Hok & Hn & Hsz).
  assert (Hlen : length es = length items).
  { apply (f_equal length) in Heq. by rewrite !length_lay_out, length_map in Heq. }
  assert (Hct : map content es = map item_content items).
  { rewrite <- (lay_out_content HEADER_SIZE es), Heq, lay_out_content.
    apply entry_of_item_content. }
  assert (Hsum : sum_Z (map (fun e => len (content e)) es) = len (contents_of items)).
  { unfold contents_of. rewrite len_concat, <- Hct, !map_map. reflexivity. }
  unfold save. cbn [entries version flags total_size].
  rewrite (set_offsets_fresh es pre HEADER_SIZE Hsized).
  rewrite (map_deref_pre (fun e => len (content e))) by reflexivity.
  cbv beta match delta [Ok].
  rewrite (map_deref_pre to_dict) by (by rewrite length_lay_out).
  rewrite Heq, Hpk. cbv beta match delta [Ok].
  rewrite !Hsum.
  unfold write_archive, set_total_size.
  cbn [entries version flags total_size].
  unfold archive_size in Hsz.
  pose proof (len_nonneg (contents_of items)).
  pose proof (len_nonneg (metadata_of items)).
  pose proof (len_nonneg items).
  assert (Hcnt : len (seq (length pre) (length es)) = len items)
    by (unfold len; rewrite length_seq; lia).
  rewrite Hcnt.
  unfold HEADER_SIZE, FOOTER_SIZE in *.
  rewrite pack_header_in_range by range_lia.
  rewrite crc32_masked.
  rewrite pack_footer_in_range; [|range_lia|apply crc32_u32].
  cbn [bind Ok].
  rewrite (map_deref_pre content)
    by (by rewrite length_lay_out, length_map, Hlen).
  rewrite lay_out_content, entry_of_item_content.
  fold (contents_of items).
  rewrite !pack_8s_exact by reflexivity.
  reflexivity.
Qed.

(** [load] on a file with the layout of [items], whatever its header says
    of the content offset and the entry count. *)
Lemma load_general (items : list item) (h : heap) (co fc ve fl : Z) :
  encodable items = true ->
  0 <= co < 2 ^ 64 -> 0 <= fc < 2 ^ 32 -> 0 <= ve <= 1 -> 0 <= fl < 65536 ->
  load (archive_file (archive_size items) co
          (HEADER_SIZE + len (contents_of items)) fc ve fl
          (contents_of items) (metadata_of items)
          (HEADER_SIZE + len (contents_of items) + len (metadata_of items))
          (crc32 (metadata_of items))) h =
  Ok ({| entries := seq (length h) (length items); version := ve; flags := fl;
         total_size := archive_size items |},
      h ++ lay_out HEADER_SIZE (map entry_of_item items)).
Proof.
  intros Henc Hco Hfc Hve Hfl.
  pose proof (packb_metadata items Henc) as [_ Hun].
  pose proof (encodable_ranges items Henc) as (H1 & H2 & H3 & H4).
  pose proof (crc32_u32 (metadata_of items)) as Hcrc. unfold u32 in Hcrc.
  unfold archive_size, HEADER_SIZE, FOOTER_SIZE in *.
  rewrite load_archive_file; try range_lia.
  rewrite Z.eqb_refl. cbn [negb]. rewrite Hun. cbn [iterate bind Ok].
  rewrite load_entries_to_dict by (apply lay_out_placed; lia).
  cbn [entries version flags total_size app].
  rewrite length_lay_out, length_map. do 3 f_equal.
  set (es := map entry_of_item items).
  pose proof (lay_out_content_at es
    (HEADER_MAGIC ++
     le_bytes 8 (64 + len (contents_of items) + len (metadata_of items) + 64) ++
     le_bytes 8 co ++
     le_bytes 8 (64 + len (contents_of items)) ++ le_bytes 4 fc ++
     le_bytes 2 ve ++ le_bytes 2 fl ++ zeros 24)
    (metadata_of items ++
     FOOTER_MAGIC ++
     le_bytes 8 (64 + len (contents_of items) + len (metadata_of items)) ++
     le_bytes 4 (crc32 (metadata_of items)) ++ zeros 44)
    (entry_of_item_sized items)) as Hat.
  pose proof (entry_of_item_content items) as Hct. fold es in Hct.
  rewrite Hct in Hat. fold (contents_of items) in Hat.
  change (len (HEADER_MAGIC ++ _)) with 64 in Hat.
  unfold archive_file.
  induction Hat as [|e l He _ IH]; [reflexivity|].
  cbn [map]. rewrite He, IH. f_equal. by destruct e.
Qed.


(** ** Extraction and listing after a round trip *)

Lemma find_deref (f : MFAFEntry -> bool) (pre es : heap) :
  (fun r => (pre ++ es) !!! r) <$>
    List.find (fun r => f ((pre ++ es) !!! r)) (seq (length pre) (length es))
  = List.find f es.
Proof.
  revert pre. induction es as [|e es IH]; intros pre; [reflexivity|].
  cbn [length seq List.find]. rewrite list_lookup_total_middle by reflexivity.
  destruct (f e) eqn:Ef.
  - cbn. by rewrite list_lookup_total_middle.
  - specialize (IH (pre ++ [e])). rewrite length_app in IH. cbn [length] in IH.
    rewrite Nat.add_1_r, <- app_assoc in IH. exact IH.
Qed.

Lemma find_lay_out (wanted : string) (items : list item) (cur : Z) :
  content <$> List.find (name_is wanted)
                (lay_out cur (map entry_of_item items))
  = first_content items wanted.
Proof.
  unfold first_content. revert cur.
  induction items as [|[[[n c] m] a] items IH]; intros cur; [reflexivity|].
  cbn [map lay_out List.find]. unfold name_is at 1, item_name at 1.
  cbn [name set_offset entry_of_item MFAFEntry_init fst snd].
  destruct (String.eqb n wanted); [reflexivity|]. apply IH.
Qed.

Lemma extract_entry_fresh (pre es : heap) (self : MFAFFile) (wanted : string) :
  entries self = seq (length pre) (length es) ->
  extract_entry self (pre ++ es) wanted =
  match content <$> List.find (name_is wanted) es with
  | Some c => Ok c
  | None => Raise (Builtin (KeyError ("Entry '" +:+ wanted +:+ "' not found")))
  end.
Proof.
  intros He. unfold extract_entry, get_entry. rewrite He.
  rewrite <- (find_deref (name_is wanted) pre es).
  by destruct (List.find _ (seq _ _)).
Qed.

(** X3. Extraction after a round trip: in the archive loaded from the file
    saved for a built archive, [extract_entry] gives the content of the
    first item of that name, and raises [KeyError] when no item has it. *)
Theorem extract_after_round_trip (items : list item) (h0 : heap)
    (wanted : string) :
  encodable items = true ->
  exists out st b h',
    save (build items).1 (build items).2 = (Ok out, st) /\
    load out h0 = Ok (b, h') /\
    extract_entry b h' wanted =
    match first_content items wanted with
    | Some c => Ok c
    | None => Raise (Builtin (KeyError ("Entry '" +:+ wanted +:+ "' not found")))
    end.
Proof.
  intros Henc. eexists _, _, _, _.
  split; [by apply save_build|]. split; [by apply load_archive_bytes|].
  rewrite extract_entry_fresh
    by (cbn [entries]; by rewrite length_lay_out, length_map).
  by rewrite find_lay_out.
Qed.

Lemma extract_after_round_trip_witness :
  exists out st b h',
    save (build sample_items).1 (build sample_items).2 = (Ok out, st) /\
    load out [] = Ok (b, h') /\
    extract_entry b h' "hello.txt" = Ok hello.
Proof.
  apply (extract_after_round_trip sample_items [] "hello.txt").
  vm_compute. reflexivity.
Defined.

Lemma entry_of_item_name (items : list item) :
  map name (map entry_of_item items)
  = map (fun it => VStr (item_name it)) items.
Proof.
  induction items as [|[[[n c] m] a] items IH]; [reflexivity|].
  cbn [map]. by rewrite IH.
Qed.

Lemma lay_out_name (cur : Z) (es : heap) :
  map name (lay_out cur es) = map name es.
Proof. revert cur. induction es; intros; cbn; [done | by rewrite IHes]. Qed.

(** X4. [list_entries] gives the names in insertion order, on the built
    archive and on the archive loaded back from its file. *)
Theorem list_entries_round_trip (items : list item) (h0 : heap) :
  encodable items = true ->
  list_entries (build items).1 (build items).2
    = map (fun it => VStr (item_name it)) items /\
  exists out st b h',
    save (build items).1 (build items).2 = (Ok out, st) /\
    load out h0 = Ok (b, h') /\
    list_entries b h' = map (fun it => VStr (item_name it)) items.
Proof.
  intros Henc. split.
  - rewrite build_spec. unfold list_entries. cbn [fst snd entries].
    rewrite <- entry_of_item_name.
    rewrite <- (length_map entry_of_item items). apply map_deref_all.
  - eexists _, _, _, _.
    split; [by apply save_build|]. split; [by apply load_archive_bytes|].
    unfold list_entries. cbn [entries].
    rewrite (map_deref_pre name) by (by rewrite length_lay_out, length_map).
    by rewrite lay_out_name, entry_of_item_name.
Qed.

Lemma list_entries_round_trip_witness :
  list_entries (build sample_items).1 (build sample_items).2
  = [VStr "hello.txt"; VStr "empty.bin"].
Proof.
  apply (list_entries_round_trip sample_items []). vm_compute. reflexivity.
Defined.

(** ** Version and flags *)

(** X5. Version and flags: [save] writes any version and flags of 16 bits
    without a check. The flags and a version of at most 1 come back from
    [load] unchanged, with the same entries; a version above 1 gives a
    file that [load] refuses with the version error. *)
Theorem version_flags_round_trip (items : list item) (ve fl t0 : Z)
    (h0 : heap) :
  encodable items = true -> 0 <= ve < 65536 -> 0 <= fl < 65536 ->
  exists out st,
    save {| entries := entries (build items).1; version := ve; flags := fl;
            total_size := t0 |} (build items).2 = (Ok out, st) /\
    (ve <= 1 ->
     exists b h', load out h0 = Ok (b, h') /\ version b = ve /\
                  flags b = fl /\ views b h' = map view_item items) /\
    (1 < ve ->
     load out h0
     = Raise (MFAFVersionError ("Unsupported version: " +:+ pretty ve))).
Proof.
  intros Henc Hve Hfl. rewrite build_spec. cbn [fst snd entries].
  pose proof (save_general items [] (map entry_of_item items) ve fl t0 Henc
                eq_refl (entry_of_item_sized items) Hve Hfl) as Hs.
  cbn [length app] in Hs. rewrite length_map in Hs.
  eexists _, _. split; [exact Hs|]. split.
  - intros Hle.
    pose proof (encodable_ranges items Henc) as (H1 & H2 & H3 & H4).
    pose proof (len_nonneg items).
    eexists _, _.
    split; [apply load_general; try assumption; unfold HEADER_SIZE; range_lia|].
    cbn [version flags]. split; [reflexivity|]. split; [reflexivity|].
    unfold views. cbn [entries].
    rewrite (map_deref_pre view) by (by rewrite length_lay_out, length_map).
    rewrite lay_out_views. apply entry_of_item_view.
  - intros Hgt.
    pose proof (encodable_ranges items Henc) as (H1 & H2 & H3 & H4).
    pose proof (len_nonneg items).
    pose proof (crc32_u32 (metadata_of items)) as Hcrc. unfold u32 in Hcrc.
    rewrite load_unfold.
    2:{ unfold len. rewrite length_archive_file. lia. }
    unfold archive_size, HEADER_SIZE, FOOTER_SIZE in *.
    rewrite header_of_archive_file by range_lia.
    rewrite bool_decide_eq_true_2 by reflexivity. cbn [negb].
    destruct (Z.ltb_spec 1 ve); [reflexivity|lia].
Qed.

Lemma version_flags_round_trip_witness :
  exists out st,
    save {| entries := entries (build sample_items).1; version := 0;
            flags := 513; total_size := 0 |} (build sample_items).2
    = (Ok out, st) /\
    exists b h', load out [] = Ok (b, h') /\ version b = 0 /\
                 flags b = 513 /\ views b h' = map view_item sample_items.
Proof.
  destruct (version_flags_round_trip sample_items 0 513 0 [])
    as (out & st & Hs & Hl & _); [vm_compute; reflexivity|lia|lia|].
  exists out, st. split; [exact Hs|]. apply Hl. lia.
Defined.


(** ** Header fields that [load] does not use *)

(** X6. [load] reads the header's content offset and entry count and uses
    neither: the file of a built archive with any values in those two
    fields loads to the same archive as the file [save] wrote. *)
Theorem load_ignores_content_offset_and_count (items : list item)
    (co fc : Z) (h : heap) :
  encodable items = true -> 0 <= co < 2 ^ 64 -> 0 <= fc < 2 ^ 32 ->
  exists out b h',
    encode items = Ok out /\
    out = archive_file (archive_size items) HEADER_SIZE
            (HEADER_SIZE + len (contents_of items)) (len items) 1 0
            (contents_of items) (metadata_of items)
            (HEADER_SIZE + len (contents_of items) + len (metadata_of items))
            (crc32 (metadata_of items)) /\
    load out h = Ok (b, h') /\
    load (archive_file (archive_size items) co
            (HEADER_SIZE + len (contents_of items)) fc 1 0
            (contents_of items) (metadata_of items)
            (HEADER_SIZE + len (contents_of items) + len (metadata_of items))
            (crc32 (metadata_of items))) h = Ok (b, h').
Proof.
  intros Henc Hco Hfc.
  pose proof (encodable_ranges items Henc) as (H1 & H2 & H3 & H4).
  pose proof (len_nonneg items).
  eexists _, _, _. split; [by apply encode_built|].
  split; [apply archive_bytes_file|].
  split.
  - apply load_general; try assumption; unfold HEADER_SIZE; range_lia.
  - apply load_general; try assumption; lia.
Qed.

Lemma load_ignores_content_offset_and_count_witness :
  exists b h',
    load (archive_bytes sample_items) [] = Ok (b, h') /\
    load (archive_file (archive_size sample_items) 0
            (HEADER_SIZE + len (contents_of sample_items)) 77 1 0
            (contents_of sample_items) (metadata_of sample_items)
            (HEADER_SIZE + len (contents_of sample_items)
             + len (metadata_of sample_items))
            (crc32 (metadata_of sample_items))) [] = Ok (b, h').
Proof.
  destruct (load_ignores_content_offset_and_count sample_items 0 77 [])
    as (out & b & h' & _ & -> & H1 & H2);
    [vm_compute; reflexivity|range_lia|range_lia|].
  exists b, h'. split; [exact H1|exact H2].
Defined.

(** ** Saving again *)

(** X7. Saving a loaded archive: the archive that [load] returns for the
    file of a built archive is saved to the same bytes, and that [save]
    changes neither the archive object nor its entries. *)
Theorem load_then_save (items : list item) (h0 : heap) :
  encodable items = true ->
  exists out st b h',
    save (build items).1 (build items).2 = (Ok out, st) /\
    load out h0 = Ok (b, h') /\
    save b h' = (Ok out, (b, h')).
Proof.
  intros Henc. eexists _, _, _, _.
  split; [by apply save_build|]. split; [by apply load_archive_bytes|].
  pose proof (save_general items h0
                (lay_out HEADER_SIZE (map entry_of_item items)) 1 0
                (archive_size items) Henc
                (lay_out_idem _ _ _)
                (lay_out_sized _ _ (entry_of_item_sized items))
                ltac:(lia) ltac:(lia)) as Hs.
  rewrite length_lay_out, length_map in Hs. rewrite Hs.
  by rewrite archive_bytes_file.
Qed.

Lemma load_then_save_witness :
  exists out st b h',
    save (build sample_items).1 (build sample_items).2 = (Ok out, st) /\
    load out [] = Ok (b, h') /\
    save b h' = (Ok out, (b, h')).
Proof. apply (load_then_save sample_items []). vm_compute. reflexivity. Defined.


(** ** What [save] writes, for any archive *)

Lemma set_offsets_contents (refs : list nat) (cur : Z) (h : heap) :
  map (fun r => content ((set_offsets refs cur h).2 !!! r)) refs
  = map (fun r => content (h !!! r)) refs.
Proof.
  apply map_ext. intros r.
  by destruct (set_offsets_frame refs cur h r) as [(_ & Hc & _) _].
Qed.

(** X8. The file [save] writes, for any archive: header, contents of the
    entries in order, packed records, footer; the total size it declares
    and stores in the archive object is the length of the file, the
    metadata offset is the header width plus the lengths of the contents,
    and version, flags and entry count were within their field widths. *)
Theorem save_output_layout (self : MFAFFile) (h : heap) (out : bytes)
    (a : MFAFFile) (h' : heap) :
  save self h = (Ok out, (a, h')) ->
  exists md,
    let contents := concat (map (fun r => content (h !!! r)) (entries self)) in
    packb (VList (map (fun r => to_dict (h' !!! r)) (entries self))) = Ok md /\
    out = archive_file (total_size a) HEADER_SIZE (HEADER_SIZE + len contents)
            (len (entries self)) (version self) (flags self) contents md
            (HEADER_SIZE + len contents + len md) (crc32 md) /\
    total_size a = len out /\
    0 <= version self < 65536 /\ 0 <= flags self < 65536 /\
    len (entries self) < 4294967296 /\ len out < 18446744073709551616.
Proof.
  unfold save.
  pose proof (set_offsets_contents (entries self) HEADER_SIZE h) as Hc.
  destruct (set_offsets (entries self) HEADER_SIZE h) as [[e|cur'] h1] eqn:Eso;
    [intros E; inversion E|].
  cbn [snd] in Hc.
  destruct (packb _) as [e|md] eqn:Epk; [intros E; inversion E|].
  unfold write_archive, set_total_size, bind.
  cbn [entries version flags total_size].
  destruct (pack_header _ _ _ _ _ _ _) as [e|hd] eqn:Eh; [intros E; inversion E|].
  destruct (pack_footer _ _ _) as [e|ft] eqn:Ef; [intros E; inversion E|].
  intros E; inversion E; subst. clear E.
  apply pack_header_ok in Eh as (-> & Hts & _ & _ & Hfc & Hve & Hfl).
  apply pack_footer_ok in Ef as (-> & _ & _).
  exists md. cbv zeta. cbn [total_size].
  rewrite crc32_masked, Hc.
  assert (Hsum : sum_Z (map (fun r => len (content (h !!! r))) (entries self))
                 = len (concat (map (fun r => content (h !!! r)) (entries self))))
    by (by rewrite len_concat, map_map).
  rewrite !Hsum.
  rewrite !pack_8s_exact by reflexivity.
  split; [exact Epk|]. split; [reflexivity|].
  assert (Hlen : len (archive_file
      (HEADER_SIZE + len (concat (map (fun r => content (h !!! r)) (entries self)))
       + len md + FOOTER_SIZE) HEADER_SIZE
      (HEADER_SIZE + len (concat (map (fun r => content (h !!! r)) (entries self))))
      (len (entries self)) (version self) (flags self)
      (concat (map (fun r => content (h !!! r)) (entries self))) md
      (HEADER_SIZE + len (concat (map (fun r => content (h !!! r)) (entries self)))
       + len md) (crc32 md))
    = HEADER_SIZE + len (concat (map (fun r => content (h !!! r)) (entries self)))
      + len md + FOOTER_SIZE).
  { unfold len. rewrite length_archive_file. unfold HEADER_SIZE, FOOTER_SIZE. lia. }
  unfold archive_file in Hlen |- *.
  split; [symmetry; exact Hlen|].
  change (2 ^ 16) with 65536 in *. change (2 ^ 32) with 4294967296 in *.
  change (2 ^ 64) with 18446744073709551616 in *.
  rewrite Hlen. repeat split; lia.
Qed.

Lemma save_output_layout_witness :
  exists out a h' md,
    save (build sample_items).1 (build sample_items).2 = (Ok out, (a, h')) /\
    packb (VList (map (fun r => to_dict (h' !!! r))
                      (entries (build sample_items).1))) = Ok md /\
    total_size a = len out.
Proof.
  eexists _, _, _. 
  destruct (save_output_layout (build sample_items).1 (build sample_items).2
              (archive_bytes sample_items)
              (save (build sample_items).1 (build sample_items).2).2.1
              (save (build sample_items).1 (build sample_items).2).2.2)
    as (md & Hp & _ & Ht & _); [vm_compute; reflexivity|].
  exists md. split; [vm_compute; reflexivity|]. split; [exact Hp|exact Ht].
Defined.

(** ** Saving twice *)

Lemma same_but_offset_sym (e e' : MFAFEntry) :
  same_but_offset e e' -> same_but_offset e' e.
Proof. unfold same_but_offset. intros (?&?&?&?&?). by repeat split. Qed.

Lemma same_but_offset_set_offset (e e' : MFAFEntry) (o : value) :
  same_but_offset e e' -> set_offset e o = set_offset e' o.
Proof.
  unfold same_but_offset, set_offset. intros (-> & -> & -> & -> & ->).
  reflexivity.
Qed.

Lemma heap_eq_total (g h : heap) :
  length g = length h -> (forall r, g !!! r = h !!! r) -> g = h.
Proof.
  intros Hlen Heq. apply (list_eq_same_length g h (length h)); [reflexivity|exact Hlen|].
  intros i x y _ Hx Hy.
  apply list_lookup_total_correct in Hx, Hy. rewrite <- Hx, <- Hy. apply Heq.
Qed.

Lemma alter_out_of_range (g : heap) (r : nat) (f : MFAFEntry -> MFAFEntry) :
  (length g <= r)%nat -> alter f r g = g.
Proof.
  intros H. apply list_eq. intros i. rewrite list_lookup_alter.
  case_decide as E; [|reflexivity]. subst i.
  by rewrite (lookup_ge_None_2 g r).
Qed.

(** The loop gives the same result from any store that differs from [h]
    only in the offsets of the entries it visits. *)
Lemma set_offsets_stable (refs : list nat) (cur c : Z) (h h' : heap) :
  set_offsets refs cur h = (Ok c, h') ->
  forall g, length g = length h ->
    (forall r, same_but_offset (g !!! r) (h !!! r)) ->
    (forall r, r ∉ refs -> g !!! r = h !!! r) ->
    set_offsets refs cur g = (Ok c, h').
Proof.
  revert cur h. induction refs as [|r0 refs IH]; intros cur h Hso g Hlen Hsame Hout.
  - cbn in *. inversion Hso; subst. f_equal.
    apply heap_eq_total; [exact Hlen|]. intros r. apply Hout.
    intros Hr. by apply elem_of_nil in Hr.
  - cbn [set_offsets] in *.
    set (f := fun entry => set_offset entry (VInt cur)) in *.
    assert (H0 : alter f r0 g !!! r0 = alter f r0 h !!! r0).
    { destruct (decide (r0 < length h)%nat) as [Hlt|Hge].
      - rewrite !list_lookup_total_alter_eq by lia.
        apply same_but_offset_set_offset, Hsame.
      - rewrite !alter_out_of_range by lia.
        rewrite !list_lookup_total_alt, !lookup_ge_None_2 by lia. reflexivity. }
    rewrite H0.
    destruct (as_int (size (alter f r0 h !!! r0))) as [s|]; [|discriminate].
    apply (IH (cur + s) (alter f r0 h) Hso).
    + by rewrite !length_alter.
    + intros r.
      destruct (alter_set_offset g r0 r (VInt cur)) as (Hg & _ & _).
      destruct (alter_set_offset h r0 r (VInt cur)) as (Hh & _ & _).
      fold f in Hg, Hh.
      eapply same_but_offset_trans; [exact Hg|].
      eapply same_but_offset_trans; [apply Hsame|].
      by apply same_but_offset_sym.
    + intros r Hr. destruct (decide (r = r0)) as [->|Hne]; [exact H0|].
      rewrite !list_lookup_total_alter_ne by done.
      apply Hout. intros Hin. apply elem_of_cons in Hin as [?|?]; done.
Qed.

(** X9. Saving twice: a second [save] of an archive, with nothing changed
    in between, writes the same bytes and changes neither the archive
    object nor any entry; this holds also when an entry object is held
    more than once. *)
Theorem save_twice (self : MFAFFile) (h : heap) (out : bytes)
    (a : MFAFFile) (h' : heap) :
  save self h = (Ok out, (a, h')) -> save a h' = (Ok out, (a, h')).
Proof.
  unfold save.
  pose proof (set_offsets_contents (entries self) HEADER_SIZE h) as Hc.
  pose proof (set_offsets_frame (entries self) HEADER_SIZE h) as Hfr.
  pose proof (set_offsets_length (entries self) HEADER_SIZE h) as Hlen.
  destruct (set_offsets (entries self) HEADER_SIZE h) as [[e|c] h1] eqn:Eso;
    [intros E; inversion E|].
  cbn [snd] in Hc, Hfr, Hlen.
  destruct (packb _) as [e|md] eqn:Epk; [intros E; inversion E|].
  intros E. inversion E as [[Hout Ha Hh]]. subst h'. clear E.
  cbn [entries set_total_size].
  assert (Hst : set_offsets (entries self) HEADER_SIZE h1 = (Ok c, h1)).
  { apply (set_offsets_stable _ _ _ h h1 Eso); [exact Hlen| |].
    - intros r. apply Hfr.
    - intros r Hr. by apply Hfr. }
  rewrite Hst. cbv beta match delta [Ok]. rewrite Epk.
  assert (Hsum : map (fun r => len (content (h1 !!! r))) (entries self)
                 = map (fun r => len (content (h !!! r))) (entries self)).
  { apply map_ext. intros r. destruct (Hfr r) as [(_ & -> & _) _]. reflexivity. }
  rewrite Hsum. subst a. unfold set_total_size, write_archive in *.
  cbn [entries version flags total_size] in *.
  rewrite Hout. reflexivity.
Qed.

Lemma save_twice_witness :
  exists out a h',
    save shared_twice [shared_entry] = (Ok out, (a, h')) /\
    save a h' = (Ok out, (a, h')).
Proof.
  eexists _, _, _. split; [vm_compute; reflexivity|].
  apply (save_twice shared_twice [shared_entry]). vm_compute. reflexivity.
Defined.


(** ** A size that is not an integer *)

Lemma set_offsets_type_error (refs : list nat) (cur : Z) (h : heap) (r : nat) :
  r ∈ refs -> (r < length h)%nat -> as_int (size (h !!! r)) = None ->
  (set_offsets refs cur h).1 = Raise (Builtin TypeError).
Proof.
  revert cur h. induction refs as [|r0 refs IH]; intros cur h Hin Hlt Hsz.
  - by apply elem_of_nil in Hin.
  - cbn [set_offsets].
    set (h1 := alter (fun entry => set_offset entry (VInt cur)) r0 h).
    assert (Hsame : forall x, size (h1 !!! x) = size (h !!! x)).
    { intros x. by destruct (alter_set_offset h r0 x (VInt cur))
        as ((_ & _ & _ & _ & Hs) & _ & _). }
    destruct (as_int (size (h1 !!! r0))) as [s|] eqn:Es; [|reflexivity].
    apply elem_of_cons in Hin as [->|Hin].
    + rewrite Hsame, Hsz in Es. discriminate.
    + apply IH; [exact Hin| |by rewrite Hsame].
      unfold h1. by rewrite length_alter.
Qed.

Lemma not_a_number_as_int (v : value) :
  not_a_number v = true -> as_int v = None.
Proof. by destruct v. Qed.

(** X10. [save] adds up the [size] fields and does not check them: when
    some entry of the archive has a size that is [None], a [str],
    [bytes], a list or a dictionary, the addition raises [TypeError] and
    nothing is written. (Integers and booleans add up; so would a
    floating point size, which is outside this development.) [load] can
    return such an archive: a record whose size is [nil] loads (the read
    goes to the end of the file). *)
Theorem save_type_error (self : MFAFFile) (h : heap) (r : nat) :
  r ∈ entries self -> (r < length h)%nat ->
  not_a_number (size (h !!! r)) = true ->
  (save self h).1 = Raise (Builtin TypeError).
Proof.
  intros Hin Hlt Hsz. apply not_a_number_as_int in Hsz. unfold save.
  pose proof (set_offsets_type_error (entries self) HEADER_SIZE h r Hin Hlt Hsz) as H.
  destruct (set_offsets (entries self) HEADER_SIZE h) as [[e|c] h1].
  - cbn in H. inversion H. reflexivity.
  - discriminate H.
Qed.

Lemma save_type_error_witness :
  exists b h',
    load nil_size_file [] = Ok (b, h') /\
    (save b h').1 = Raise (Builtin TypeError).
Proof.
  eexists _, _. split; [vm_compute; reflexivity|].
  apply (save_type_error _ _ 0%nat).
  - vm_compute. left.
  - vm_compute. lia.
  - reflexivity.
Defined.


(** ** The checks of [load], on any input *)

(** X11. A file of fewer than 64 bytes, the empty file included, makes
    [load] fail with the size error for the header. *)
Theorem load_too_short (data : bytes) (h : heap) :
  len data < HEADER_SIZE ->
  load data h
  = Raise (MFAFSizeError "File too small to contain a valid header").
Proof. apply load_short. Qed.

Lemma load_too_short_witness :
  load [] [] = Raise (MFAFSizeError "File too small to contain a valid header").
Proof. apply (load_too_short [] []). reflexivity. Defined.

(** X12. The size error for the footer is never raised: once the header
    has been read, the file has the 64 bytes of a footer. The only size
    errors of [load] are the one for a short header and the one of the
    size check. *)
Theorem load_size_errors (data : bytes) (h : heap) :
  match load data h with
  | inl (MFAFSizeError msg) =>
      msg = "File too small to contain a valid header" \/
      msg = "Inconsistent size fields"
  | _ => True
  end.
Proof.
  destruct (Z.lt_ge_cases (len data) 64) as [Hs|Hl].
  - rewrite load_short by exact Hs. by left.
  - rewrite load_unfold by lia.
    destruct (header_of data) as [[[[[[magic ts] co] mo] fc] ve] fl].
    destruct (negb _); [exact I|].
    destruct (1 <? ve); [exact I|].
    destruct (footer_of data) as [[fm me] ck].
    destruct (negb _); [exact I|].
    destruct (negb _); [by right|].
    destruct (load_tail _ _ _ _ _ _ _ _) as [e|] eqn:E; [|exact I].
    apply load_tail_error in E. by destruct e.
Qed.

(** X13. Footer magic: a file of at least 64 bytes with the header magic
    and a version of at most 1 whose last 64 bytes do not begin with the
    footer magic makes [load] fail with the magic error for the footer. *)
Theorem load_footer_magic_gate (data : bytes) (h : heap)
    (ts co mo fc ve fl : Z) :
  64 <= len data ->
  header_of data = (HEADER_MAGIC, ts, co, mo, fc, ve, fl) -> ve <= 1 ->
  take 8 (drop (length data - 64) data) <> FOOTER_MAGIC ->
  load data h = Raise (MFAFMagicError "Invalid footer magic number").
Proof. apply load_bad_footer_magic. Qed.

Lemma load_footer_magic_gate_witness :
  load (take 64 (archive_bytes sample_items)) []
  = Raise (MFAFMagicError "Invalid footer magic number").
Proof.
  apply (load_footer_magic_gate (take 64 (archive_bytes sample_items)) []
           (archive_size sample_items) 64 69 2 1 0).
  - vm_compute. discriminate.
  - vm_compute. reflexivity.
  - lia.
  - vm_compute. discriminate.
Defined.

(** X14. Size check: a file that passes the header and footer checks and
    whose footer's metadata end plus the footer width differs from the
    header's total size makes [load] fail with the size error. *)
Theorem load_size_gate (data : bytes) (h : heap)
    (ts co mo fc ve fl me ck : Z) :
  64 <= len data ->
  header_of data = (HEADER_MAGIC, ts, co, mo, fc, ve, fl) -> ve <= 1 ->
  footer_of data = (FOOTER_MAGIC, me, ck) ->
  me + FOOTER_SIZE <> ts ->
  load data h = Raise (MFAFSizeError "Inconsistent size fields").
Proof.
  intros Hlen Hh Hv Hf Hne. rewrite load_unfold by exact Hlen.
  rewrite Hh, Hf. rewrite !bool_decide_eq_true_2 by reflexivity. cbn [negb].
  destruct (Z.ltb_spec 1 ve); [lia|].
  rewrite sizes_consistent_eq.
  destruct (Z.eqb_spec (me + FOOTER_SIZE) ts); [contradiction|]. reflexivity.
Qed.

Lemma load_size_gate_witness :
  load wrong_size_file [] = Raise (MFAFSizeError "Inconsistent size fields").
Proof.
  apply (load_size_gate wrong_size_file [] 999 64 64 0 1 0 65
           (crc32 (pack (VList [])))).
  - vm_compute. discriminate.
  - vm_compute. reflexivity.
  - lia.
  - vm_compute. reflexivity.
  - vm_compute. discriminate.
Defined.

(** ** Metadata that does not parse, or is not a list of records *)

Lemma unpackb_malformed (md : bytes) : malformed md -> unpackb md = None.
Proof.
  intros [|rest|v b rest Hp Hwf].
  - reflexivity.
  - reflexivity.
  - unfold unpackb.
    rewrite (unpack_pack v RECURSE_LEVELS) by
      (assumption || (rewrite length_app; lia)).
    reflexivity.
Qed.

Lemma scalar_packable (v : value) (nest : nat) :
  scalar v = true -> packable (S nest) v = true /\ wf_value v = true.
Proof. by destruct v. Qed.

Lemma scalars_packable (l : list value) (nest : nat) :
  forallb scalar l = true -> len l < 4294967296 ->
  packable (S (S nest)) (VList l) = true /\ wf_value (VList l) = true.
Proof.
  intros Hs Hl. rewrite forallb_forall in Hs. split.
  - cbn [packable]. apply andb_true_iff. split; [by apply Z.ltb_lt|].
    apply forallb_forall. intros x Hx.
    by apply (scalar_packable x nest), Hs.
  - rewrite wf_VList. apply forallb_forall. intros x Hx.
    by apply (scalar_packable x 0), Hs.
Qed.

Section MetadataBlob.
Variables (c md : bytes) (co fc ve fl : Z) (h : heap).
Hypothesis Hco : 0 <= co < 2 ^ 64.
Hypothesis Hfc : 0 <= fc < 2 ^ 32.
Hypothesis Hve : 0 <= ve <= 1.
Hypothesis Hfl : 0 <= fl < 2 ^ 16.
Hypothesis Hsize : 64 + len c + len md + 64 < 2 ^ 63.

(** A file with content region [c], metadata blob [md] and consistent
    header and footer, the checksum of [md] included. *)
Let file : bytes :=
  archive_file (64 + len c + len md + 64) co (64 + len c) fc ve fl c md
               (64 + len c + len md) (crc32 md).

Lemma load_metadata_blob :
  load file h =
  match unpackb md with
  | None => Raise (MFAFMsgPackError "Failed to parse metadata")
  | Some metadata_list =>
      let* items := iterate metadata_list in
      load_entries file items
        {| entries := []; version := ve; flags := fl;
           total_size := 64 + len c + len md + 64 |} h
  end.
Proof.
  pose proof (len_nonneg c). pose proof (len_nonneg md).
  pose proof (crc32_u32 md) as Hcrc. unfold u32 in Hcrc.
  unfold file. rewrite load_archive_file; try range_lia.
  by rewrite Z.eqb_refl.
Qed.

(** X15. A consistent file whose metadata blob msgpack refuses (it is
    empty, starts with the unused tag [0xc1], or holds a value followed
    by more bytes) makes [load] fail with the metadata error. Its message
    starts with the source's text; the library's own text, which the
    source appends, is left open. *)
Theorem load_unparsable_metadata :
  malformed md ->
  exists text,
    load file h
    = Raise (MFAFMsgPackError ("Failed to parse metadata" +:+ text)).
Proof.
  intros Hm. exists "".
  by rewrite load_metadata_blob, (unpackb_malformed md Hm).
Qed.

(** X16. Metadata that parses but is not a list of maps is not caught.
    When the blob is one [None], boolean or integer, the loop over it
    ends [load] with the built-in [TypeError]; when it is a list of such
    values, not empty, [from_dict] on the first ends [load] with the
    built-in [AttributeError]. Neither is an [MFAFError]. *)
Theorem load_untyped_metadata (v : value) (l : list value) :
  (scalar v = true -> md = pack v ->
   load file h = Raise (Builtin TypeError)) /\
  (forallb scalar (v :: l) = true -> len (v :: l) < 4294967296 ->
   md = pack (VList (v :: l)) ->
   load file h = Raise (Builtin AttributeError)) /\
  is_MFAFError (Builtin TypeError) = false /\
  is_MFAFError (Builtin AttributeError) = false.
Proof.
  split; [|split; [|split; reflexivity]].
  - intros Hs Hmd. rewrite load_metadata_blob, Hmd.
    destruct (scalar_packable v 0 Hs) as [Hp Hw].
    rewrite (unpackb_pack v 1 Hp Hw). by destruct v.
  - intros Hs Hl Hmd. rewrite load_metadata_blob, Hmd.
    destruct (scalars_packable (v :: l) 0 Hs Hl) as [Hp Hw].
    rewrite (unpackb_pack _ 2 Hp Hw).
    cbn [iterate bind Ok load_entries].
    apply andb_true_iff in Hs as [Hv _]. by destruct v.
Qed.
End MetadataBlob.

Lemma load_unparsable_metadata_witness :
  exists text,
    load (archive_file 130 64 64 0 1 0 [] [xc0; xc0] 66 (crc32 [xc0; xc0])) []
    = Raise (MFAFMsgPackError ("Failed to parse metadata" +:+ text)).
Proof.
  apply (load_unparsable_metadata [] [xc0; xc0] 64 0 1 0 []);
    try (vm_compute; split; discriminate || reflexivity).
  apply (malformed_trailing VNil xc0 []); reflexivity.
Defined.

Lemma load_untyped_metadata_witness :
  load (archive_file 129 64 64 0 1 0 [] (pack (VInt 5)) 65
          (crc32 (pack (VInt 5)))) []
  = Raise (Builtin TypeError).
Proof.
  refine (proj1 (load_untyped_metadata [] (pack (VInt 5)) 64 0 1 0 []
                   _ _ _ _ _ (VInt 5) []) _ _).
  - vm_compute. split; discriminate || reflexivity.
  - vm_compute. split; discriminate || reflexivity.
  - vm_compute. split; discriminate || reflexivity.
  - vm_compute. split; discriminate || reflexivity.
  - vm_compute. reflexivity.
  - reflexivity.
  - reflexivity.
Defined.


(** ** What a successful [load] returns *)

Lemma read_value_within (data : bytes) (v : value) (pos : Z)
    (chunk : bytes) (pos' : Z) (s : Z) :
  read_value data v pos = Ok (chunk, pos') -> v = VInt s -> 0 <= s ->
  len chunk <= s.
Proof.
  intros Hr -> Hs. cbn in Hr. unfold f_read in Hr.
  destruct (s <? -1); [discriminate|].
  destruct (9223372036854775808 <=? s); [discriminate|].
  destruct (Z.eqb_spec s (-1)); [lia|].
  inversion Hr; subst. unfold slice, len. rewrite length_take. lia.
Qed.

Lemma load_entries_fresh (data : bytes) (items : list value)
    (mfaf : MFAFFile) (h : heap) (b : MFAFFile) (h' : heap) :
  load_entries data items mfaf h = Ok (b, h') ->
  exists es,
    h' = h ++ es /\ length es = length items /\
    entries b = entries mfaf ++ seq (length h) (length es) /\
    version b = version mfaf /\ flags b = flags mfaf /\
    total_size b = total_size mfaf /\
    Forall within_size es.
Proof.
  revert mfaf h. induction items as [|it items IH]; intros mfaf h.
  - intros [= <- <-]. exists []. rewrite !app_nil_r. repeat split. constructor.
  - cbn [load_entries]. unfold bind.
    destruct (from_dict it) as [?|entry] eqn:E1; [discriminate|].
    destruct (seek_value (offset entry)) as [?|pos]; [discriminate|].
    destruct (read_value data (size entry) pos) as [?|[chunk pos']] eqn:E3;
      [discriminate|].
    cbn [alloc]. intros Hl. apply IH in Hl
      as (es & -> & Hlen & He & Hv & Hf & Ht & Hw).
    exists (set_content entry chunk :: es).
    cbn [add_entry entries version flags total_size] in *.
    rewrite <- app_assoc. split; [reflexivity|].
    split; [cbn; by rewrite Hlen|].
    split.
    { rewrite He, <- app_assoc. cbn [app length seq]. rewrite length_app.
      cbn [length]. by rewrite Nat.add_1_r. }
    repeat split; try assumption.
    constructor; [|exact Hw].
    intros s Hs Hs0. cbn [size set_content content] in *.
    by apply (read_value_within data (size entry) pos chunk pos' s).
Qed.

Lemma header_of_ranges (data : bytes) (magic : bytes) (ts co mo fc ve fl : Z) :
  header_of data = (magic, ts, co, mo, fc, ve, fl) ->
  0 <= ve < 65536 /\ 0 <= fl < 65536.
Proof.
  unfold header_of, unpack_header. intros H. inversion H; subst.
  split.
  - pose proof (le_value_range (take 2 (drop 36 (take 64 data)))) as Hr.
    assert (Hl : len (take 2 (drop 36 (take 64 data))) <= 2)
      by (unfold len; rewrite length_take; lia).
    assert (2 ^ (8 * len (take 2 (drop 36 (take 64 data)))) <= 2 ^ 16)
      by (apply Z.pow_le_mono_r; lia).
    change (2 ^ 16) with 65536 in *. lia.
  - pose proof (le_value_range (take 2 (drop 38 (take 64 data)))) as Hr.
    assert (Hl : len (take 2 (drop 38 (take 64 data))) <= 2)
      by (unfold len; rewrite length_take; lia).
    assert (2 ^ (8 * len (take 2 (drop 38 (take 64 data)))) <= 2 ^ 16)
      by (apply Z.pow_le_mono_r; lia).
    change (2 ^ 16) with 65536 in *. lia.
Qed.

(** X17. What a successful [load] returns, for any input: the entries are
    new objects behind the objects that existed, which are left as they
    were; the archive holds exactly them, in order; version, flags and
    total size are those of the header, with a version of at most 1; the
    total size is the footer's metadata end plus 64 (it is not compared
    with the length of the file); and no entry has more content than its
    size says. *)
Theorem load_result (data : bytes) (h : heap) (b : MFAFFile) (h' : heap) :
  load data h = Ok (b, h') ->
  exists es co mo fc me ck,
    h' = h ++ es /\
    entries b = seq (length h) (length es) /\
    Forall within_size es /\
    64 <= len data /\
    header_of data
      = (HEADER_MAGIC, total_size b, co, mo, fc, version b, flags b) /\
    footer_of data = (FOOTER_MAGIC, me, ck) /\
    total_size b = me + FOOTER_SIZE /\
    0 <= version b <= 1 /\ 0 <= flags b < 65536.
Proof.
  destruct (Z.lt_ge_cases (len data) 64) as [Hs|Hl].
  { rewrite load_short by exact Hs. discriminate. }
  rewrite load_unfold by lia.
  destruct (header_of data) as [[[[[[magic ts] co] mo] fc] ve] fl] eqn:Hh.
  destruct (bool_decide (magic = HEADER_MAGIC)) eqn:Hm; [|discriminate].
  apply bool_decide_eq_true in Hm. subst magic. cbn [negb].
  destruct (Z.ltb_spec 1 ve); [discriminate|].
  destruct (footer_of data) as [[fm me] ck] eqn:Hf.
  destruct (bool_decide (fm = FOOTER_MAGIC)) eqn:Hfm; [|discriminate].
  apply bool_decide_eq_true in Hfm. subst fm. cbn [negb].
  rewrite sizes_consistent_eq.
  destruct (Z.eqb_spec (me + FOOTER_SIZE) ts) as [Hts|]; [|discriminate].
  cbn [negb]. unfold load_tail, bind.
  destruct (f_seek mo) as [?|pos]; [discriminate|].
  destruct (f_read data (me - mo) pos) as [?|[md pos']]; [discriminate|].
  destruct (negb _); [discriminate|].
  destruct (unpackb md) as [l|]; [|discriminate].
  destruct (iterate l) as [?|items]; [discriminate|].
  intros Hl'. apply load_entries_fresh in Hl'
    as (es & -> & _ & He & Hv & Hfl & Ht & Hw).
  cbn [entries version flags total_size MFAFFile_init app] in *.
  pose proof (header_of_ranges data _ _ _ _ _ _ _ Hh) as [Hve Hflr].
  exists es, co, mo, fc, me, ck. rewrite Hv, Hfl, Ht.
  repeat split; try assumption; try lia.
Qed.

Lemma load_result_witness :
  exists b h' es,
    load stray_file [shared_entry] = Ok (b, h') /\
    h' = [shared_entry] ++ es /\ Forall within_size es.
Proof.
  eexists _, _.
  destruct (load_result stray_file [shared_entry]
              (match load stray_file [shared_entry] with
               | inr p => p.1 | inl _ => MFAFFile_init end)
              (match load stray_file [shared_entry] with
               | inr p => p.2 | inl _ => [] end))
    as (es & _ & _ & _ & _ & _ & Hh & _ & Hw & _); [vm_compute; reflexivity|].
  exists es. split; [vm_compute; reflexivity|]. split; [exact Hh|exact Hw].
Defined.


(** ** Records and entries *)

(** X18. An entry's record read back: [from_dict] on [to_dict] of any
    entry gives the entry's name, MIME type, offset and size; the content
    is not part of the record and comes back empty; attributes that count
    as false (none, or an empty dictionary) are left out of the record and
    come back as the empty dictionary. *)
Theorem from_dict_of_to_dict (e : MFAFEntry) :
  from_dict (to_dict e) =
  Ok {| name := name e; content := []; mime_type := mime_type e;
        attributes := if truthy (attributes e) then attributes e else VDict [];
        offset := offset e; size := size e |}
  /\ (truthy (attributes e) = false <->
      forall d, to_dict e = VDict d -> dict_get d "a" = None).
Proof.
  destruct e as [n c m a o s]. unfold to_dict.
  cbn [name content mime_type attributes offset size].
  destruct (truthy a) eqn:Ha; split.
  - cbn. unfold MFAFEntry_init, set_offset, set_size. cbn. by rewrite Ha.
  - split; [discriminate|]. intros H. specialize (H _ eq_refl). discriminate H.
  - reflexivity.
  - split; [|reflexivity]. intros _ d [= <-]. reflexivity.
Qed.

(** ** Adding a file *)

Lemma has_slash_basename (p : string) : has_slash (basename p) = false.
Proof.
  induction p as [|ch rest IH]; [reflexivity|]. cbn [basename].
  destruct (has_slash rest) eqn:Hr; [exact IH|].
  destruct (Ascii.eqb ch "/") eqn:Hc; [exact Hr|].
  cbn [has_slash]. by rewrite Hc, Hr.
Qed.

Lemma find_ext_elem {A} (f g : A -> bool) (l : list A) :
  (forall x, x ∈ l -> f x = g x) -> List.find f l = List.find g l.
Proof.
  induction l as [|a l IH]; intros H; [reflexivity|].
  cbn [List.find]. rewrite (H a) by left. destruct (g a); [reflexivity|].
  apply IH. intros x Hx. apply H. by right.
Qed.

Lemma get_entry_add_entry_fresh (self : MFAFFile) (h : heap) (e : MFAFEntry)
    (wanted : string) :
  (forall r, r ∈ entries self -> (r < length h)%nat) ->
  get_entry (add_entry self (length h)) (h ++ [e]) wanted =
  match get_entry self h wanted with
  | Some r => Some r
  | None => if name_is wanted ((h ++ [e]) !!! length h)
            then Some (length h) else None
  end.
Proof.
  intros Hval. unfold get_entry, add_entry. cbn [entries].
  rewrite (find_snoc (fun r => name_is wanted ((h ++ [e]) !!! r))).
  rewrite (find_ext_elem (fun r => name_is wanted ((h ++ [e]) !!! r))
                         (fun r => name_is wanted (h !!! r))).
  - reflexivity.
  - intros r Hr. by rewrite lookup_total_app_l by (by apply Hval).
Qed.

(** X19. [add_file] on a readable file appends one new entry, named by
    the given name or else by what follows the last slash of the path,
    with the file's bytes as content; the names listed grow by that name
    at the end. Extraction by that name gives the file's bytes when the
    name was free, and still the older entry's content when it was
    taken. *)
Theorem add_file_then_extract (fs : filesystem) (self : MFAFFile) (h : heap)
    (file_path : string) (given : option string) (mime_type : string)
    (attributes : value) (c : bytes) :
  fs file_path = Some c ->
  (forall r, r ∈ entries self -> (r < length h)%nat) ->
  let stored := default (basename file_path) given in
  exists self' e,
    add_file fs self h file_path given mime_type attributes
      = Ok (self', h ++ [e]) /\
    name e = VStr stored /\ content e = c /\
    list_entries self' (h ++ [e]) = list_entries self h ++ [VStr stored] /\
    (get_entry self h stored = None ->
     extract_entry self' (h ++ [e]) stored = Ok c) /\
    (forall r, get_entry self h stored = Some r ->
     extract_entry self' (h ++ [e]) stored = Ok (content (h !!! r))).
Proof.
  intros Hfs Hval stored. unfold add_file. rewrite Hfs. cbn [alloc].
  eexists _, _. split.
  { f_equal. }
  assert (Hst : match given with Some n => n | None => basename file_path end
                = stored) by (by destruct given).
  rewrite Hst.
  assert (Hold : forall r, r ∈ entries self ->
            (h ++ [MFAFEntry_init (VStr stored) c (VStr mime_type) attributes])
              !!! r = h !!! r).
  { intros r Hr. apply lookup_total_app_l. by apply Hval. }
  assert (Hnew : (h ++ [MFAFEntry_init (VStr stored) c (VStr mime_type) attributes])
                   !!! length h
                 = MFAFEntry_init (VStr stored) c (VStr mime_type) attributes).
  { by rewrite list_lookup_total_middle. }
  assert (Hget : get_entry (add_entry self (length h))
                   (h ++ [MFAFEntry_init (VStr stored) c (VStr mime_type) attributes])
                   stored
                 = match get_entry self h stored with
                   | Some r => Some r
                   | None => Some (length h)
                   end).
  { rewrite get_entry_add_entry_fresh by exact Hval. rewrite Hnew.
    unfold name_is. cbn [name MFAFEntry_init]. rewrite String.eqb_refl.
    reflexivity. }
  split; [reflexivity|]. split; [reflexivity|]. split.
  - unfold list_entries, add_entry. cbn [entries]. rewrite map_app. cbn [map].
    rewrite Hnew. cbn [name MFAFEntry_init]. f_equal.
    apply map_ext_in. intros r Hr. rewrite Hold by (by apply list_elem_of_In).
    reflexivity.
  - split.
    + intros Hnone. unfold extract_entry. rewrite Hget, Hnone, Hnew. reflexivity.
    + intros r Hsome. unfold extract_entry. rewrite Hget, Hsome.
      rewrite Hold; [reflexivity|].
      unfold get_entry in Hsome. apply find_some in Hsome as [Hin _].
      by apply list_elem_of_In.
Qed.

Lemma add_file_then_extract_witness :
  exists self' e,
    add_file (one_file "docs/readme.md" hello)
             (build sample_items).1 (build sample_items).2
             "docs/readme.md" None DEFAULT_MIME VNil
      = Ok (self', (build sample_items).2 ++ [e]) /\
    name e = VStr "readme.md" /\
    extract_entry self' ((build sample_items).2 ++ [e]) "readme.md" = Ok hello.
Proof.
  destruct (add_file_then_extract (one_file "docs/readme.md" hello)
              (build sample_items).1 (build sample_items).2
              "docs/readme.md" None DEFAULT_MIME VNil hello)
    as (self' & e & Hadd & Hname & _ & _ & Hfree & _).
  - reflexivity.
  - intros r Hr. vm_compute in Hr. vm_compute.
    apply elem_of_cons in Hr as [->|Hr]; [lia|].
    apply elem_of_cons in Hr as [->|Hr]; [lia|].
    by apply elem_of_nil in Hr.
  - exists self', e. split; [exact Hadd|]. split; [exact Hname|].
    apply Hfree. vm_compute. reflexivity.
Defined.
